(** * Monte Carlo engine (distributions.ts, statistics.ts, sensitivity.ts,
      simulator.ts): a shallow embedding and its specification.

    JavaScript numbers are kept abstract: every function of the engine is
    written once over a carrier [T] with the operations the source uses
    ([JSNum] for the field operations, comparisons and [Math.sqrt]/[Math.abs],
    [JSMath] for [Math.log], [Math.exp], [Math.pow], [Math.log10],
    [Math.floor] and [Math.ceil]).  Two interpretations are given:
    - [Rnum]: the real numbers of the Standard Library (exact arithmetic);
    - [Fnum]: IEEE binary64 ([PrimFloat]), the representation of a JS
      [number], for the field operations and [Math.sqrt].
    Array reads [a[i]] are [nth i a d]; the default [d] is only reached
    out of range, which the callers below never do unless noted. *)

From Stdlib Require Import String ZArith Bool Reals Lra Lia List Permutation Sorted.
From Stdlib Require Import Floats.
Import ListNotations.

(* ------------------------------------------------------------------ *)
(** ** JS numbers *)

Class JSNum (T : Type) := {
  n_zero : T;
  n_add : T -> T -> T;
  n_sub : T -> T -> T;
  n_mul : T -> T -> T;
  n_div : T -> T -> T;
  n_sqrt : T -> T;               (* Math.sqrt *)
  n_abs : T -> T;                (* Math.abs *)
  n_of_Z : Z -> T;               (* integer literals and array lengths *)
  n_NaN : T;                     (* the number [undefined] coerces to *)
  n_eqb : T -> T -> bool;        (* === *)
  n_ltb : T -> T -> bool         (* <   *)
}.

Class JSMath (T : Type) := {
  m_log : T -> T;
  m_exp : T -> T;
  m_pow : T -> T -> T;
  m_log10 : T -> T;
  m_floor : T -> Z;              (* Math.floor, on finite values *)
  m_ceil : T -> Z                (* Math.ceil, on finite values *)
}.

Declare Scope js_scope.
Delimit Scope js_scope with js.
Infix "+#" := n_add (at level 50, left associativity) : js_scope.
Infix "-#" := n_sub (at level 50, left associativity) : js_scope.
Infix "*#" := n_mul (at level 40, left associativity) : js_scope.
Infix "/#" := n_div (at level 40, left associativity) : js_scope.
Infix "<#" := n_ltb (at level 70, no associativity) : js_scope.
Infix "=#" := n_eqb (at level 70, no associativity) : js_scope.

Section JSOps.
Context {T : Type} `{JSNum T}.
Local Open Scope js_scope.

Definition n_leb (a b : T) : bool := (a <# b) || (a =# b).   (* <= *)

(** A decimal literal [m * 10^-e] (e.g. 3.322 is [lit 3322 3]): the
    quotient of two exact integers, rounded once, as the literal is. *)
Definition lit (m e : Z) : T := n_of_Z m /# n_of_Z (10 ^ e).

Definition n_of_nat (k : nat) : T := n_of_Z (Z.of_nat k).

(** [Math.max(a, b)] (NaN-propagating). *)
Definition Math_max (a b : T) : T :=
  if negb (a =# a) then a else if negb (b =# b) then b
  else if a <# b then b else a.

(** [Array.prototype.sort(cmp)]: stable since ES2019; [cmp x y > 0] puts
    [x] after [y].  Insertion sort is the stable sort for a consistent
    comparator. *)
Fixpoint js_insert {A} (cmp : A -> A -> T) (x : A) (l : list A) : list A :=
  match l with
  | [] => [x]
  | y :: l' => if n_zero <# cmp x y then y :: js_insert cmp x l' else x :: l
  end.

Fixpoint js_sort {A} (cmp : A -> A -> T) (l : list A) : list A :=
  match l with
  | [] => []
  | x :: l' => js_insert cmp x (js_sort cmp l')
  end.

(** [a[i] = v] on an array of length [n] with [i < n]; out of range the
    write is dropped (as a [Uint32Array] does). *)
Fixpoint upd {A} (l : list A) (i : nat) (v : A) : list A :=
  match l, i with
  | [], _ => []
  | _ :: l', O => v :: l'
  | x :: l', S i' => x :: upd l' i' v
  end.

End JSOps.

(* ------------------------------------------------------------------ *)
(** ** sensitivity.ts *)

Record SensitivityResult {T : Type} := {
  inputId : option string;      (* inputIds[j]; undefined when absent *)
  inputName : option string;
  coefficient : T;
  rankCorrelation : T
}.
Arguments SensitivityResult : clear implicits.

Module Sensitivity.
Section Sens.
Context {T : Type} `{JSNum T}.
Local Open Scope js_scope.

(** [function mean(arr)] *)
Definition mean (arr : list T) : T :=
  fold_left (fun s v => s +# v) arr n_zero /# n_of_nat (length arr).

(** [function stdDev(arr, m)] *)
Definition stdDev (arr : list T) (m : T) : T :=
  n_sqrt (fold_left (fun s v => let d := v -# m in s +# d *# d) arr n_zero
          /# n_of_nat (length arr)).

(** [standardisedRegressionCoefficient(x, y)]; the loop over [i < n] is a
    fold over the pairs [(x[i], y[i])]: both arrays have length [n] at
    every call. *)
Definition standardisedRegressionCoefficient (x y : list T) : T :=
  let n := length x in
  let mx := mean x in
  let my := mean y in
  let sx := stdDev x mx in
  let sy := stdDev y my in
  if (sx =# n_zero) || (sy =# n_zero) then n_zero
  else
    let cov := fold_left (fun c p => c +# (fst p -# mx) *# (snd p -# my))
                 (combine x y) n_zero in
    let cov := cov /# n_of_nat n in
    cov /# (sx *# sy).

(** One tie group of [ranks]: starting at sorted position [i], the run of
    entries whose value is [=== indexed[i].val]. *)
Fixpoint tie_run (v : T) (l : list (T * nat)) : list (T * nat) :=
  match l with
  | p :: l' => if fst p =# v then p :: tie_run v l' else []
  | [] => []
  end.

(** The [while (i < n)] loop of [ranks]: [rest] is [indexed] from
    position [i] on. *)
Fixpoint rank_loop (fuel i : nat) (rest : list (T * nat)) (result : list T)
  : list T :=
  match fuel, rest with
  | S fuel', (v, idx) :: tl =>
      let grp := (v, idx) :: tie_run v tl in
      let j := i + length grp - 1 in
      let avgRank := n_of_nat (i + j) /# n_of_Z 2 +# n_of_Z 1 in
      let result' := fold_left (fun r p => upd r (snd p) avgRank) grp result in
      rank_loop fuel' (S j) (skipn (length grp) rest) result'
  | _, _ => result
  end.

(** [function ranks(arr)] (1-based, average ties). *)
Definition ranks (arr : list T) : list T :=
  let n := length arr in
  let indexed := js_sort (fun a b => fst a -# fst b) (combine arr (seq 0 n)) in
  rank_loop n 0 indexed (repeat n_zero n).

(** [spearmanRankCorrelation(x, y)] *)
Definition spearmanRankCorrelation (x y : list T) : T :=
  standardisedRegressionCoefficient (ranks x) (ranks y).

(** [inputSamples[i]?.[j] ?? 0] *)
Definition cell (inputSamples : list (list T)) (i j : nat) : T :=
  match nth_error inputSamples i with
  | Some row => match nth_error row j with Some v => v | None => n_zero end
  | None => n_zero
  end.

(** Column [j] as extracted by the loop of [computeSensitivity]. *)
Definition column (inputSamples : list (list T)) (j n : nat) : list T :=
  map (fun i => cell inputSamples i j) (seq 0 n).

(** The array [results] built by the [for (j ...)] loop, in input order. *)
Definition sensitivityResults (inputSamples : list (list T))
    (outputValues : list T) (inputNames inputIds : list string)
  : list (SensitivityResult T) :=
  let n := length outputValues in
  map (fun j =>
         let x := column inputSamples j n in
         {| inputId := nth_error inputIds j;
            inputName := nth_error inputNames j;
            coefficient := standardisedRegressionCoefficient x outputValues;
            rankCorrelation := spearmanRankCorrelation x outputValues |})
      (seq 0 (length inputNames)).

(** [results.sort((a, b) => Math.abs(b.coefficient) - Math.abs(a.coefficient))] *)
Definition byAbsCoefficient (a b : SensitivityResult T) : T :=
  n_abs (coefficient b) -# n_abs (coefficient a).

(** [export function computeSensitivity(...)] *)
Definition computeSensitivity (inputSamples : list (list T))
    (outputValues : list T) (inputNames inputIds : list string)
  : list (SensitivityResult T) :=
  let n := length outputValues in
  let numInputs := length inputNames in
  if (n <? 3)%nat || (numInputs =? 0)%nat then []
  else js_sort byAbsCoefficient
         (sensitivityResults inputSamples outputValues inputNames inputIds).

End Sens.
End Sensitivity.

(* ------------------------------------------------------------------ *)
(** ** Interpretations *)

(** IEEE binary64, the JS [number]. *)
#[export] Instance Fnum : JSNum float := {
  n_zero := 0%float;
  n_add := PrimFloat.add;
  n_sub := PrimFloat.sub;
  n_mul := PrimFloat.mul;
  n_div := PrimFloat.div;
  n_sqrt := PrimFloat.sqrt;
  n_abs := PrimFloat.abs;
  n_of_Z z := if (z <? 0)%Z then PrimFloat.opp (PrimFloat.of_uint63 (Uint63.of_Z (- z)))
              else PrimFloat.of_uint63 (Uint63.of_Z z);
  n_NaN := PrimFloat.nan;
  n_eqb := PrimFloat.eqb;
  n_ltb := PrimFloat.ltb
}.

(** Real numbers: exact arithmetic (no NaN: [n_NaN] is 0, as [x / 0] is). *)
Definition Reqb (a b : R) : bool := if Req_dec_T a b then true else false.
Definition Rltb (a b : R) : bool := if Rlt_dec a b then true else false.

#[export] Instance Rnum : JSNum R := {
  n_zero := 0%R;
  n_add := Rplus;
  n_sub := Rminus;
  n_mul := Rmult;
  n_div := Rdiv;
  n_sqrt := R_sqrt.sqrt;
  n_abs := Rabs;
  n_of_Z := IZR;
  n_NaN := 0%R;
  n_eqb := Reqb;
  n_ltb := Rltb
}.

#[export] Instance Rmath : JSMath R := {
  m_log := ln;
  m_exp := exp;
  m_pow := Rpower;
  m_log10 x := (ln x / ln 10)%R;
  m_floor := Int_part;
  m_ceil x := (- Int_part (- x))%Z
}.

(* ------------------------------------------------------------------ *)
(** ** statistics.ts *)

Record Percentiles {T : Type} := {
  p1 : T; p5 : T; p10 : T; p25 : T; p50 : T; p75 : T; p90 : T; p95 : T; p99 : T
}.
Arguments Percentiles : clear implicits.

Record OutputStatistics {T : Type} := {
  minimum : T;
  maximum : T;
  st_mean : T;
  median : T;
  mode : T;
  st_stdDev : T;
  variance : T;
  skewness : T;
  kurtosis : T;
  percentiles : Percentiles T;
  confidenceInterval : T * T;
  probNegative : T;
  count : nat
}.
Arguments OutputStatistics : clear implicits.

Record HistogramBin {T : Type} := {
  x0 : T;
  x1 : T;
  h_count : nat;
  frequency : T;
  density : T
}.
Arguments HistogramBin : clear implicits.

Module Statistics.

(** [{ x, cdf }], an element of the array [computeCDF] returns. *)
Record CDFPoint {T : Type} := {
  x : T;
  cdf : T
}.
Arguments CDFPoint : clear implicits.

Section Stats.
Context {T : Type} `{JSNum T} `{JSMath T}.
Local Open Scope js_scope.

(** The comparator [(a, b) => a - b]. *)
Definition ascending (a b : T) : T := a -# b.

(** [export function percentile(sorted, p)] *)
Definition percentile (sorted : list T) (p : T) : T :=
  let n := length sorted in
  if (n =? 0)%nat then n_zero
  else if (n =? 1)%nat then nth 0 sorted n_zero
  else
    let idx := p *# n_of_nat (n - 1) in
    let lo := m_floor idx in
    let hi := m_ceil idx in
    let frac := idx -# n_of_Z lo in
    nth (Z.to_nat lo) sorted n_zero *# (n_of_Z 1 -# frac)
    +# nth (Z.to_nat hi) sorted n_zero *# frac.

(** [Math.max(lo, Math.min(hi, Math.ceil(1 + 3.322 * Math.log10(n))))]:
    the Sturges bin count, bounded to [lo, hi]. *)
Definition sturges (lo hi : Z) (n : nat) : Z :=
  Z.max lo (Z.min hi (m_ceil (n_of_Z 1 +# lit 3322 3 *# m_log10 (n_of_nat n)))).

(** [bins[bin]++] for every sorted value, [bin] capped at [numBins - 1]. *)
Definition fill_bins (sorted : list T) (lo binWidth : T) (numBins : Z)
    (bins : list nat) : list nat :=
  fold_left (fun b v =>
               let bin := m_floor ((v -# lo) /# binWidth) in
               let bin := if (bin >=? numBins)%Z then (numBins - 1)%Z else bin in
               upd b (Z.to_nat bin) (S (nth (Z.to_nat bin) b 0%nat)))
            sorted bins.

(** The [maxBin] scan: first bin with the strictly largest count. *)
Fixpoint argmax_from (i : nat) (bins : list nat) (maxBin maxCount : nat) : nat :=
  match bins with
  | [] => maxBin
  | c :: bs => if (maxCount <? c)%nat then argmax_from (S i) bs i c
               else argmax_from (S i) bs maxBin maxCount
  end.

(** [function computeMode(sorted)] *)
Definition computeMode (sorted : list T) : T :=
  let n := length sorted in
  let s0 := nth 0 sorted n_zero in
  if (n <=? 2)%nat then s0
  else
    let range := nth (n - 1) sorted n_zero -# s0 in
    if range =# n_zero then s0
    else
      let numBins := sturges 10 200 n in
      let binWidth := range /# n_of_Z numBins in
      let bins := fill_bins sorted s0 binWidth numBins (repeat 0%nat (Z.to_nat numBins)) in
      let maxBin := argmax_from 0 bins 0 0 in
      s0 +# (n_of_nat maxBin +# lit 5 1) *# binWidth.

(** [function emptyStats()] *)
Definition emptyStats : OutputStatistics T :=
  {| minimum := n_zero; maximum := n_zero; st_mean := n_zero; median := n_zero;
     mode := n_zero; st_stdDev := n_zero; variance := n_zero;
     skewness := n_zero; kurtosis := n_zero;
     percentiles := {| p1 := n_zero; p5 := n_zero; p10 := n_zero; p25 := n_zero;
                       p50 := n_zero; p75 := n_zero; p90 := n_zero; p95 := n_zero;
                       p99 := n_zero |};
     confidenceInterval := (n_zero, n_zero);
     probNegative := n_zero;
     count := 0 |}.

(** The [for] loop accumulating [sumSqDiff], [sumCubDiff], [sumQuadDiff]. *)
Definition central_sums (values : list T) (m : T) : T * T * T :=
  fold_left (fun acc v =>
               let '(s2, s3, s4) := acc in
               let diff := v -# m in
               let d2 := diff *# diff in
               (s2 +# d2, s3 +# d2 *# diff, s4 +# d2 *# d2))
            values (n_zero, n_zero, n_zero).

(** [export function computeStatistics(values, confidenceLevel)] *)
Definition computeStatistics (values : list T) (confidenceLevel : T)
  : OutputStatistics T :=
  let n := length values in
  if (n =? 0)%nat then emptyStats
  else
    let sorted := js_sort ascending values in
    let nR := n_of_nat n in
    let minimum := nth 0 sorted n_zero in
    let maximum := nth (n - 1) sorted n_zero in
    let sum := fold_left n_add values n_zero in
    let mean := sum /# nR in
    let median :=
      if (n mod 2 =? 0)%nat
      then (nth (n / 2 - 1) sorted n_zero +# nth (n / 2) sorted n_zero) /# n_of_Z 2
      else nth (n / 2) sorted n_zero in
    let '(sumSqDiff, sumCubDiff, sumQuadDiff) := central_sums values mean in
    let variance := sumSqDiff /# nR in
    let stdDev := n_sqrt variance in
    let skewness :=
      if n_zero <# stdDev then (sumCubDiff /# nR) /# (stdDev *# stdDev *# stdDev)
      else n_zero in
    let kurtosis :=
      if n_zero <# stdDev then (sumQuadDiff /# nR) /# (variance *# variance) -# n_of_Z 3
      else n_zero in
    let mode := computeMode sorted in
    let percentiles :=
      {| p1 := percentile sorted (lit 1 2); p5 := percentile sorted (lit 5 2);
         p10 := percentile sorted (lit 10 2); p25 := percentile sorted (lit 25 2);
         p50 := percentile sorted (lit 50 2); p75 := percentile sorted (lit 75 2);
         p90 := percentile sorted (lit 90 2); p95 := percentile sorted (lit 95 2);
         p99 := percentile sorted (lit 99 2) |} in
    let alpha := (n_of_Z 1 -# confidenceLevel) /# n_of_Z 2 in
    let confidenceInterval :=
      (percentile sorted alpha, percentile sorted (n_of_Z 1 -# alpha)) in
    let negCount := length (filter (fun v => v <# n_zero) values) in
    let probNegative := n_of_nat negCount /# nR in
    {| minimum := minimum; maximum := maximum; st_mean := mean; median := median;
       mode := mode; st_stdDev := stdDev; variance := variance;
       skewness := skewness; kurtosis := kurtosis; percentiles := percentiles;
       confidenceInterval := confidenceInterval; probNegative := probNegative;
       count := n |}.

(** The [for] loop that fills the histogram: [result[idx].count++]. *)
Definition bump (b : HistogramBin T) : HistogramBin T :=
  {| x0 := x0 b; x1 := x1 b; h_count := S (h_count b);
     frequency := frequency b; density := density b |}.

(** [result[idx]] is [undefined] outside [0 <= idx < bins]: reading its
    [count] throws. *)
Definition undefined_count : string :=
  "TypeError: Cannot read properties of undefined (reading 'count')".

Fixpoint count_into (sorted : list T) (min binWidth : T) (bins : Z)
    (result : list (HistogramBin T)) : string + list (HistogramBin T) :=
  match sorted with
  | [] => inr result
  | v :: rest =>
      let idx := m_floor ((v -# min) /# binWidth) in
      let idx := if (idx >=? bins)%Z then (bins - 1)%Z else idx in
      match (if (idx <? 0)%Z then None else nth_error result (Z.to_nat idx)) with
      | Some b => count_into rest min binWidth bins (upd result (Z.to_nat idx) (bump b))
      | None => inl undefined_count
      end
  end.

(** [export function computeHistogram(values, numBins?)]; a thrown error
    is [inl]. *)
Definition computeHistogram (values : list T) (numBins : option Z)
  : string + list (HistogramBin T) :=
  let n := length values in
  if (n =? 0)%nat then inr []
  else
    let sorted := js_sort ascending values in
    let min := nth 0 sorted n_zero in
    let max := nth (n - 1) sorted n_zero in
    let range := max -# min in
    if range =# n_zero then
      inr [{| x0 := min -# lit 5 1; x1 := max +# lit 5 1; h_count := n;
              frequency := n_of_Z 1; density := n_of_Z 1 |}]
    else
      let bins := match numBins with Some b => b | None => sturges 20 100 n end in
      let binWidth := range /# n_of_Z bins in
      let result := map (fun i =>
                           {| x0 := min +# n_of_nat i *# binWidth;
                              x1 := min +# n_of_nat (S i) *# binWidth;
                              h_count := 0; frequency := n_zero; density := n_zero |})
                        (seq 0 (Z.to_nat bins)) in
      match count_into sorted min binWidth bins result with
      | inl e => inl e
      | inr result =>
          inr (map (fun b =>
                      let f := n_of_nat (h_count b) /# n_of_nat n in
                      {| x0 := x0 b; x1 := x1 b; h_count := h_count b;
                         frequency := f; density := f /# binWidth |}) result)
      end.

(** The [while (sortedIdx < n && sorted[sortedIdx] <= x)] loop of
    [computeCDF]; [rest] is [sorted] from position [sortedIdx] on. *)
Fixpoint cdf_advance (rest : list T) (sortedIdx : nat) (x : T) : list T * nat :=
  match rest with
  | v :: rest' => if n_leb v x then cdf_advance rest' (S sortedIdx) x else (rest, sortedIdx)
  | [] => (rest, sortedIdx)
  end.

(** The [for (i ...)] loop of [computeCDF], [k] iterations left from [i]. *)
Fixpoint cdf_points (k i : nat) (min step : T) (n : nat) (rest : list T)
    (sortedIdx : nat) : list (CDFPoint T) :=
  match k with
  | O => []
  | S k' =>
      let x := min +# n_of_nat i *# step in
      let '(rest', sortedIdx') := cdf_advance rest sortedIdx x in
      {| x := x; cdf := n_of_nat sortedIdx' /# n_of_nat n |}
        :: cdf_points k' (S i) min step n rest' sortedIdx'
  end.

(** [export function computeCDF(values, numPoints = 200)]; [None] is an
    absent [numPoints]. *)
Definition computeCDF (values : list T) (numPoints : option Z) : list (CDFPoint T) :=
  let numPoints := match numPoints with Some k => k | None => 200%Z end in
  let n := length values in
  if (n =? 0)%nat then []
  else
    let sorted := js_sort ascending values in
    let min := nth 0 sorted n_zero in
    let max := nth (n - 1) sorted n_zero in
    let range := max -# min in
    if range =# n_zero then
      [{| x := min -# lit 5 1; cdf := n_zero |}; {| x := min; cdf := n_of_Z 1 |}]
    else
      let step := range /# n_of_Z (numPoints - 1) in
      cdf_points (Z.to_nat numPoints) 0 min step n sorted 0.

End Stats.
End Statistics.


(* ------------------------------------------------------------------ *)
(** ** Effects: module-level state, exceptions and loops that may not end *)

(** A computation over the module state [S]: it returns, throws an
    [Error], or the model gives it no outcome ([NoOutcome]): a rejection
    loop has not accepted within its bound, or a distribution parameter
    is not a number (see [Distributions.param_num]). *)
Inductive outcome (S A : Type) : Type :=
| Ret (a : A) (s : S)
| Throw (msg : string) (s : S)
| NoOutcome.
Arguments Ret {S A}.
Arguments Throw {S A}.
Arguments NoOutcome {S A}.

Definition M (S A : Type) : Type := S -> outcome S A.

Definition mret {S A} (a : A) : M S A := fun s => Ret a s.
Definition mthrow {S A} (msg : string) : M S A := fun s => Throw msg s.
Definition mbind {S A B} (m : M S A) (k : A -> M S B) : M S B :=
  fun s => match m s with
           | Ret a s' => k a s'
           | Throw e s' => Throw e s'
           | NoOutcome => NoOutcome
           end.
Definition mmodify {S} (f : S -> S) : M S unit := fun s => Ret tt (f s).
Definition mgets {S A} (f : S -> A) : M S A := fun s => Ret (f s) s.

(** [try { m } finally { f }]: [f] runs after [m] returns or throws; an
    error of [f] replaces the outcome of [m]. *)
Definition mfinally {S A} (m : M S A) (f : M S unit) : M S A :=
  fun s => match m s with
           | Ret a s' =>
               match f s' with
               | Ret _ s'' => Ret a s''
               | Throw e s'' => Throw e s''
               | NoOutcome => NoOutcome
               end
           | Throw e s' =>
               match f s' with
               | Ret _ s'' => Throw e s''
               | Throw e' s'' => Throw e' s''
               | NoOutcome => NoOutcome
               end
           | NoOutcome => NoOutcome
           end.

Notation "x <- m ;; k" := (mbind m (fun x => k))
  (at level 61, m at next level, right associativity).
Notation "' p <- m ;; k" := (mbind m (fun x => match x with p => k end))
  (at level 61, p pattern, m at next level, right associativity).
Notation "m ;; k" := (mbind m (fun _ => k))
  (at level 61, right associativity).

(* ------------------------------------------------------------------ *)
(** ** 32-bit words (Uint32Array cells, [>>>], [<<], [^], [Math.imul]) *)

Local Open Scope Z_scope.

Definition u32 (x : Z) : Z := x mod 2 ^ 32.                 (* x >>> 0 *)
Definition shl32 (x k : Z) : Z := u32 (Z.shiftl x k).         (* x << k  *)
Definition shr32 (x k : Z) : Z := Z.shiftr (u32 x) k.         (* x >>> k *)
Definition imul (a b : Z) : Z := u32 (u32 a * u32 b).         (* Math.imul *)
(** Signed int32 results ([<<], [|], [^], [Math.imul]) are kept by their
    32-bit pattern: every later use ([>>>], a [Uint32Array] store, [* 9]
    followed by [>>> 0]) only depends on the value modulo [2^32]. *)

Definition Words : Type := (Z * Z * Z * Z)%type.

(** One round of the SplitMix32 loop of [seedRng]. *)
Definition splitmix_round (s : Z) : Z * Z :=
  let s := s + 0x9e3779b9 in
  let t := Z.lxor (u32 s) (shr32 s 16) in
  let t := imul t 0x21f0aaad in
  let t := Z.lxor t (shr32 t 15) in
  let t := imul t 0x735a2d97 in
  let t := Z.lxor t (shr32 t 15) in
  (s, u32 t).

(** [seedRng(seed)]: the four state words. *)
Definition seedRng_words (seed : Z) : Words :=
  let s := u32 seed in
  let '(s, w0) := splitmix_round s in
  let '(s, w1) := splitmix_round s in
  let '(s, w2) := splitmix_round s in
  let '(_, w3) := splitmix_round s in
  (w0, w1, w2, w3).

(** [xoshiro()]: the 32-bit output [result >>> 0] and the next state. *)
Definition xoshiro_step (w : Words) : Z * Words :=
  let '(s0, s1, s2, s3) := w in
  let r := imul (s1 * 5) 7 in
  let result := u32 (Z.lor (shl32 r 9) (shr32 r 23) * 9) in
  let t := shl32 s1 9 in
  let s2 := Z.lxor s2 s0 in
  let s3 := Z.lxor s3 s1 in
  let s1 := Z.lxor s1 s2 in
  let s0 := Z.lxor s0 s3 in
  let s2 := Z.lxor s2 t in
  let s3 := Z.lor (shl32 s3 11) (shr32 s3 21) in
  (result, (s0, s1, s2, u32 s3)).

Local Close Scope Z_scope.

(* ------------------------------------------------------------------ *)
(** ** distributions.ts *)

Inductive Param {T : Type} := PNum (x : T) | PArr (xs : list T).
Arguments Param : clear implicits.

(** The module-level variables of distributions.ts, the host's
    [Math.random] stream, and a count of the divisions by zero performed
    (a division [a / b] whose divisor is not a literal is [div_ck]). *)
Record St {T : Type} := {
  s_rng : Words;                 (* let _s = new Uint32Array(4) *)
  useSeededRng : bool;           (* let useSeededRng *)
  hasSpare : bool;               (* let _hasSpare *)
  spare : T;                     (* let _spare *)
  mathRandom : nat -> T;         (* successive Math.random() results *)
  mrPos : nat;
  zeroDivs : nat
}.
Arguments St : clear implicits.

Section Setters.
Context {T : Type}.
Definition set_rng (w : Words) (st : St T) : St T :=
  {| s_rng := w; useSeededRng := useSeededRng st; hasSpare := hasSpare st;
     spare := spare st; mathRandom := mathRandom st; mrPos := mrPos st;
     zeroDivs := zeroDivs st |}.
Definition set_useSeeded (b : bool) (st : St T) : St T :=
  {| s_rng := s_rng st; useSeededRng := b; hasSpare := hasSpare st;
     spare := spare st; mathRandom := mathRandom st; mrPos := mrPos st;
     zeroDivs := zeroDivs st |}.
Definition set_spare (h : bool) (v : T) (st : St T) : St T :=
  {| s_rng := s_rng st; useSeededRng := useSeededRng st; hasSpare := h;
     spare := v; mathRandom := mathRandom st; mrPos := mrPos st;
     zeroDivs := zeroDivs st |}.
Definition next_mr (st : St T) : St T :=
  {| s_rng := s_rng st; useSeededRng := useSeededRng st; hasSpare := hasSpare st;
     spare := spare st; mathRandom := mathRandom st; mrPos := S (mrPos st);
     zeroDivs := zeroDivs st |}.
Definition tick_zeroDiv (st : St T) : St T :=
  {| s_rng := s_rng st; useSeededRng := useSeededRng st; hasSpare := hasSpare st;
     spare := spare st; mathRandom := mathRandom st; mrPos := mrPos st;
     zeroDivs := S (zeroDivs st) |}.
End Setters.

Module Distributions.
Section Dist.
Context {T : Type} `{JSNum T} `{JSMath T}.
Local Open Scope js_scope.
Local Open Scope string_scope.

(** Bound on the iterations of each rejection loop. *)
Variable fuel : nat.

Local Abbreviation DM := (M (St T)).

(** A division whose divisor is computed at run time. *)
Definition div_ck (a b : T) : DM T :=
  fun st => Ret (a /# b) (if b =# n_zero then tick_zeroDiv st else st).

(** [export function seedRng(seed)] *)
Definition seedRng (seed : Z) : DM unit := mmodify (set_rng (seedRng_words seed)).

(** [export function setUseSeededRng(flag)] *)
Definition setUseSeededRng (flag : bool) : DM unit := mmodify (set_useSeeded flag).

(** [export function resetSamplerState()] *)
Definition resetSamplerState : DM unit := mmodify (set_spare false n_zero).

(** [function rand()]: [xoshiro()] or [Math.random()]. *)
Definition rand : DM T :=
  fun st =>
    if useSeededRng st then
      let '(r, w) := xoshiro_step (s_rng st) in
      Ret (n_of_Z r /# n_of_Z 4294967296) (set_rng w st)
    else Ret (mathRandom st (mrPos st)) (next_mr st).

(** The [do { ... } while (s >= 1 || s === 0)] loop of [sampleStdNormal]. *)
Fixpoint polar (k : nat) : DM (T * T * T) :=
  match k with
  | O => fun _ => NoOutcome
  | S k' =>
      u <- rand ;;
      let u := u *# n_of_Z 2 -# n_of_Z 1 in
      v <- rand ;;
      let v := v *# n_of_Z 2 -# n_of_Z 1 in
      let s := u *# u +# v *# v in
      if n_leb (n_of_Z 1) s || (s =# n_zero) then polar k' else mret (u, v, s)
  end.

(** [export function sampleStdNormal()] *)
Definition sampleStdNormal : DM T :=
  h <- mgets hasSpare ;;
  if h then
    v <- mgets spare ;;
    mmodify (set_spare false v) ;;
    mret v
  else
    '(u, v, s) <- polar fuel ;;
    q <- div_ck (n_of_Z (-2) *# m_log s) s ;;
    let mul := n_sqrt q in
    mmodify (set_spare true (v *# mul)) ;;
    mret (u *# mul).

Definition sampleNormal (mean stdev : T) : DM T :=
  z <- sampleStdNormal ;; mret (mean +# stdev *# z).

Definition sampleUniform (min max : T) : DM T :=
  u <- rand ;; mret (min +# u *# (max -# min)).

Definition sampleTriangular (min mode max : T) : DM T :=
  u <- rand ;;
  fc <- div_ck (mode -# min) (max -# min) ;;
  if u <# fc then mret (min +# n_sqrt (u *# (max -# min) *# (mode -# min)))
  else mret (max -# n_sqrt ((n_of_Z 1 -# u) *# (max -# min) *# (max -# mode))).

(** The [do { x = sampleStdNormal(); v = 1 + c * x; } while (v <= 0)]
    loop of [sampleGamma]. *)
Fixpoint gamma_draw (k : nat) (c : T) : DM (T * T) :=
  match k with
  | O => fun _ => NoOutcome
  | S k' =>
      x <- sampleStdNormal ;;
      let v := n_of_Z 1 +# c *# x in
      if n_leb v n_zero then gamma_draw k' c else mret (x, v)
  end.

(** The [while (true)] loop of [sampleGamma]. *)
Fixpoint gamma_loop (k : nat) (d c scale : T) : DM T :=
  match k with
  | O => fun _ => NoOutcome
  | S k' =>
      '(x, v) <- gamma_draw fuel c ;;
      let v := v *# v *# v in
      u <- rand ;;
      if u <# n_of_Z 1 -# lit 331 4 *# (x *# x) *# (x *# x) then mret (d *# v *# scale)
      else if m_log u <# lit 5 1 *# x *# x +# d *# (n_of_Z 1 -# v +# m_log v)
      then mret (d *# v *# scale)
      else gamma_loop k' d c scale
  end.

(** [function sampleGamma(shape, scale)]; [k] bounds the recursion on
    [shape + 1]. *)
Fixpoint sampleGamma (k : nat) (shape scale : T) : DM T :=
  match k with
  | O => fun _ => NoOutcome
  | S k' =>
      if shape <# n_of_Z 1 then
        g <- sampleGamma k' (shape +# n_of_Z 1) scale ;;
        u <- rand ;;
        e <- div_ck (n_of_Z 1) shape ;;
        mret (g *# m_pow u e)
      else
        let d := shape -# n_of_Z 1 /# n_of_Z 3 in
        c <- div_ck (n_of_Z 1) (n_sqrt (n_of_Z 9 *# d)) ;;
        gamma_loop fuel d c scale
  end.

Definition sampleBeta (a b : T) : DM T :=
  x <- sampleGamma fuel a (n_of_Z 1) ;;
  y <- sampleGamma fuel b (n_of_Z 1) ;;
  div_ck x (x +# y).

Definition samplePERT (min mode max : T) : DM T :=
  let range := max -# min in
  if n_leb range n_zero then mret mode
  else
    let mu := (min +# n_of_Z 4 *# mode +# max) /# n_of_Z 6 in
    alpha1 <- div_ck ((mu -# min) *# (n_of_Z 2 *# mode -# min -# max))
                     ((mode -# mu) *# (max -# min)) ;;
    '(a, b) <-
      (if n_zero <# alpha1 then
         b <- div_ck (alpha1 *# (max -# mu)) (mu -# min) ;; mret (alpha1, b)
       else
         qa <- div_ck (n_of_Z 4 *# (mu -# min)) range ;;
         qb <- div_ck (n_of_Z 4 *# (max -# mu)) range ;;
         mret (n_of_Z 1 +# qa, n_of_Z 1 +# qb)) ;;
    let a := Math_max a (lit 5 1) in
    let b := Math_max b (lit 5 1) in
    betaSample <- sampleBeta a b ;;
    mret (min +# betaSample *# range).

Definition sampleLognormal (mu sigma : T) : DM T :=
  z <- sampleStdNormal ;; mret (m_exp (mu +# sigma *# z)).

(** The cumulative scan of [sampleDiscrete] from index [i]. *)
Fixpoint discrete_scan (u cumulative : T) (i : nat) (vs : list T)
    (probs : option (list T)) (values : list T) : DM T :=
  match vs with
  | [] => mret (last values n_NaN)
  | v :: vs' =>
      match probs with
      | None => mthrow "TypeError: Cannot read properties of undefined"
      | Some ps =>
          let cumulative := cumulative +# nth i ps n_NaN in
          if n_leb u cumulative then mret v
          else discrete_scan u cumulative (S i) vs' probs values
      end
  end.

(** [sampleDiscrete(values, probs)]; [None] is an absent parameter. *)
Definition sampleDiscrete (values probs : option (list T)) : DM T :=
  u <- rand ;;
  match values with
  | None => mthrow "TypeError: Cannot read properties of undefined"
  | Some vs => discrete_scan u n_zero 0 vs probs vs
  end.

(** [params.k as number] when it is a number.  An array or an absent key
    ([undefined]) is carried on by JavaScript as it is: [+] concatenates
    an array's string form, [staticNormal] and [staticTriangular] return
    it unchanged.  These number-valued definitions do not follow that:
    [None], and the dispatchers below give no outcome for it. *)
Definition param_num (params : list (string * Param T)) (k : string) : option T :=
  match find (fun p => String.eqb (fst p) k) params with
  | Some (_, PNum x) => Some x
  | _ => None
  end.

(** No outcome: a parameter that is not a number. *)
Definition no_outcome {A} : DM A := fun _ => NoOutcome.

(** [params.k as number[]]: a number has no [length] and reads as an
    empty array. *)
Definition param_arr (params : list (string * Param T)) (k : string)
  : option (list T) :=
  match find (fun p => String.eqb (fst p) k) params with
  | Some (_, PArr xs) => Some xs
  | Some (_, PNum _) => Some []
  | None => None
  end.

(** [export function sampleDistribution(type, params)] *)
Definition sampleDistribution (type : string) (params : list (string * Param T))
  : DM T :=
  let num := param_num params in
  if String.eqb type "normal" then
    match num "mean", num "stdev" with
    | Some mean, Some stdev => sampleNormal mean stdev
    | _, _ => no_outcome
    end
  else if String.eqb type "uniform" then
    match num "min", num "max" with
    | Some min, Some max => sampleUniform min max
    | _, _ => no_outcome
    end
  else if String.eqb type "triangular" then
    match num "min", num "mode", num "max" with
    | Some min, Some mode, Some max => sampleTriangular min mode max
    | _, _, _ => no_outcome
    end
  else if String.eqb type "pert" then
    match num "min", num "mode", num "max" with
    | Some min, Some mode, Some max => samplePERT min mode max
    | _, _, _ => no_outcome
    end
  else if String.eqb type "lognormal" then
    match num "mu", num "sigma" with
    | Some mu, Some sigma => sampleLognormal mu sigma
    | _, _ => no_outcome
    end
  else if String.eqb type "discrete" then
    sampleDiscrete (param_arr params "values") (param_arr params "probs")
  else mthrow ("Unknown distribution: " ++ type).

(** [staticNormal(mean, _stdev)] *)
Definition staticNormal (mean stdev : T) : T := mean.

(** [staticUniform(min, max)] *)
Definition staticUniform (min max : T) : T := (min +# max) /# n_of_Z 2.

(** [staticTriangular(_min, mode, _max)] *)
Definition staticTriangular (min mode max : T) : T := mode.

(** [staticPERT(min, mode, max)]: the PERT weighted mean. *)
Definition staticPERT (min mode max : T) : T :=
  (min +# n_of_Z 4 *# mode +# max) /# n_of_Z 6.

(** [staticLognormal(mu, sigma)] *)
Definition staticLognormal (mu sigma : T) : T :=
  m_exp (mu +# (sigma *# sigma) /# n_of_Z 2).

(** The [for] loop of [staticDiscrete] from index [i]:
    [result += values[i] * probs[i]]. *)
Fixpoint discrete_sum (result : T) (i : nat) (vs : list T) (probs : option (list T))
  : string + T :=
  match vs with
  | [] => inr result
  | v :: vs' =>
      match probs with
      | None => inl "TypeError: Cannot read properties of undefined"
      | Some ps => discrete_sum (result +# v *# nth i ps n_NaN) (S i) vs' probs
      end
  end.

(** [staticDiscrete(values, probs)]; a thrown error is [inl]. *)
Definition staticDiscrete (values probs : option (list T)) : string + T :=
  match values with
  | None => inl "TypeError: Cannot read properties of undefined"
  | Some vs => discrete_sum n_zero 0 vs probs
  end.

(** [export function staticValue(type, params)]; a thrown error is [inl],
    and [None] is no outcome (a parameter that is not a number). *)
Definition staticValue (type : string) (params : list (string * Param T))
  : option (string + T) :=
  let num := param_num params in
  if String.eqb type "normal" then
    match num "mean", num "stdev" with
    | Some mean, Some stdev => Some (inr (staticNormal mean stdev))
    | _, _ => None
    end
  else if String.eqb type "uniform" then
    match num "min", num "max" with
    | Some min, Some max => Some (inr (staticUniform min max))
    | _, _ => None
    end
  else if String.eqb type "triangular" then
    match num "min", num "mode", num "max" with
    | Some min, Some mode, Some max => Some (inr (staticTriangular min mode max))
    | _, _, _ => None
    end
  else if String.eqb type "pert" then
    match num "min", num "mode", num "max" with
    | Some min, Some mode, Some max => Some (inr (staticPERT min mode max))
    | _, _, _ => None
    end
  else if String.eqb type "lognormal" then
    match num "mu", num "sigma" with
    | Some mu, Some sigma => Some (inr (staticLognormal mu sigma))
    | _, _ => None
    end
  else if String.eqb type "discrete" then
    Some (staticDiscrete (param_arr params "values") (param_arr params "probs"))
  else Some (inl ("Unknown distribution: " ++ type)).

End Dist.
End Distributions.

(* ------------------------------------------------------------------ *)
(** ** types.ts and simulator.ts *)

(** A cell value read back from the workbook. *)
Inductive Cell {T : Type} := CNum (x : T) | CText (s : string).
Arguments Cell : clear implicits.

Record DistributionInput {T : Type} := {
  in_id : string;
  in_cellAddress : string;
  in_type : string;
  in_params : list (string * Param T);
  in_name : string
}.
Arguments DistributionInput : clear implicits.

Record SimulationOutput := {
  out_id : string;
  out_cellAddress : string;
  out_name : string
}.

Record SimulationConfig {T : Type} := {
  iterations : Z;
  seed : Z;
  confidenceLevel : T;
  probabilityThreshold : T
}.
Arguments SimulationConfig : clear implicits.

Record OutputResults {T : Type} := {
  outputId : string;
  res_name : string;
  res_cellAddress : string;
  values : list T;
  stats : OutputStatistics T
}.
Arguments OutputResults : clear implicits.

(** [SimulationResults] without [elapsedMs] (wall-clock time); the
    [Map] is an association list in insertion order. *)
Record SimulationResults {T : Type} := {
  config : SimulationConfig T;
  outputs : list (OutputResults T);
  sensitivity : list (string * list (SensitivityResult T));
  inputSamples : list (list T)
}.
Arguments SimulationResults : clear implicits.

Inductive SimulationStatus :=
  Idle | Running | Paused | Completed | Error | Cancelled.

(** [SimulationProgress] without its wall-clock fields
    ([iterationsPerSecond], [elapsedMs], [estimatedRemainingMs]). *)
Record SimulationProgress := {
  status : SimulationStatus;
  currentIteration : Z;
  totalIterations : Z
}.

(** [Map.prototype.set]: an existing key keeps its position. *)
Fixpoint map_set {V} (k : string) (v : V) (m : list (string * V))
  : list (string * V) :=
  match m with
  | [] => [(k, v)]
  | (k', v') :: m' => if String.eqb k k' then (k, v) :: m' else (k', v') :: map_set k v m'
  end.

(** The workbook as [runSimulation] sees it inside [Excel.run]:
    - [xl_open]: the error, if any, of the setup: [Excel.run],
      [getActiveWorksheet], [getRange] and the first [ctx.sync()];
    - [xl_step i row]: iteration [i] writes [row] to the input cells,
      recalculates and syncs; the sync throws an error ([inl]), or output
      cell [k] reads back [read k] ([inr read]);
    - [xl_restore]: the error, if any, of the [ctx.sync()] in the
      [finally] block that restores the input formulas. *)
Record Excel {T : Type} := {
  xl_open : option string;
  xl_step : nat -> list T -> string + (nat -> Cell T);
  xl_restore : option string
}.
Arguments Excel : clear implicits.

Module Simulator.
Section Sim.
Context {T : Type} `{JSNum T} `{JSMath T}.
Local Open Scope js_scope.

(** Bound on each rejection loop of the samplers. *)
Variable fuel : nat.
(** The host's [parseFloat]. *)
Variable parseFloat : string -> T.

Local Abbreviation DM := (M (St T)).

(** [typeof val === "number" ? val : parseFloat(String(val)) || 0] *)
Definition coerce (c : Cell T) : T :=
  match c with
  | CNum x => x
  | CText s =>
      let v := parseFloat s in
      if negb (v =# v) || (v =# n_zero) then n_zero else v
  end.

(** The [for (j ...)] loop sampling every input of one iteration. *)
Fixpoint sampleAll (inputs : list (DistributionInput T)) : DM (list T) :=
  match inputs with
  | [] => mret []
  | inp :: rest =>
      v <- Distributions.sampleDistribution fuel (in_type inp) (in_params inp) ;;
      vs <- sampleAll rest ;;
      mret (v :: vs)
  end.

(** The iteration loop of [runSimulation], inside the [try] whose
    [finally] restores the input formulas.

    - [xl] is the workbook (see [Excel]);
    - [cancelAt = Some c]: [cancelSimulation()] is called while iteration
      [c - 1] is in flight (for [c = 0]: before the first iteration), so
      [_cancelled] is set from the check before iteration [c] on.

    It returns the sample matrix, the output series, the progress updates
    and the iteration at which the loop stopped. *)
Fixpoint iterate (config : SimulationConfig T) (inputs : list (DistributionInput T))
    (nOut : nat) (xl : Excel T) (cancelAt : option nat)
    (todo iter : nat) (inputSamples outputValues : list (list T))
    (progress : list SimulationProgress)
  : DM (list (list T) * list (list T) * list SimulationProgress * nat) :=
  let cancelled_at i := match cancelAt with Some c => (c <=? i)%nat | None => false end in
  match todo with
  | O => mret (inputSamples, outputValues, progress, iter)
  | S todo' =>
      if cancelled_at iter then mret (inputSamples, outputValues, progress, iter)
      else
        samples <- sampleAll inputs ;;
        match xl_step xl iter samples with
        | inl e => mthrow e
        | inr read =>
            let inputSamples := inputSamples ++ [samples] in
            let outputValues :=
              map (fun p => fst p ++ [coerce (read (snd p))])
                  (combine outputValues (seq 0 nOut)) in
            let it := Z.of_nat iter in
            let progress :=
              if (Z.eqb (it mod 10) 0 || Z.eqb it (iterations config - 1))%Z
              then progress ++
                     [{| status := if cancelled_at (S iter) then Cancelled else Running;
                         currentIteration := (it + 1)%Z;
                         totalIterations := iterations config |}]
              else progress in
            iterate config inputs nOut xl cancelAt todo' (S iter)
                    inputSamples outputValues progress
        end
  end.

(** The [finally] block of the iteration loop: [await ctx.sync()]. *)
Definition restore (xl : Excel T) : DM unit :=
  match xl_restore xl with Some e => mthrow e | None => mret tt end.

(** [export async function runSimulation(config, onProgress)]: the
    registered inputs and outputs ([getInputs()], [getOutputs()]) are
    arguments; the updates [onProgress] receives are returned with the
    results.  The [catch] around [Excel.run] rethrows the error it
    catches, so an error of the workbook is the error of the run. *)
Definition runSimulation (config : SimulationConfig T)
    (inputs : list (DistributionInput T)) (outputs : list SimulationOutput)
    (xl : Excel T) (cancelAt : option nat)
  : DM (SimulationResults T * list SimulationProgress) :=
  match inputs, outputs with
  | [], _ => mthrow "No distribution inputs found. Use MC.Normal(), MC.Triangular(), etc. in cells first."%string
  | _, [] => mthrow "No output cells found. Use MC.Output() to mark output cells first."%string
  | _, _ =>
      (if (0 <? seed config)%Z
       then Distributions.seedRng (seed config) ;; Distributions.setUseSeededRng true
       else Distributions.setUseSeededRng false) ;;
      Distributions.resetSamplerState ;;
      let nOut := length outputs in
      match xl_open xl with
      | Some e => mthrow e
      | None =>
          '(inputSamples, outputValues, progress, stop) <-
            mfinally (iterate config inputs nOut xl cancelAt
                              (Z.to_nat (iterations config)) 0 [] (repeat [] nOut) [])
                     (restore xl) ;;
          let outputResults :=
            map (fun p =>
                   {| outputId := out_id (fst p); res_name := out_name (fst p);
                      res_cellAddress := out_cellAddress (fst p); values := snd p;
                      stats := Statistics.computeStatistics (snd p) (confidenceLevel config) |})
                (combine outputs outputValues) in
          let inputNames := map in_name inputs in
          let inputIds := map in_id inputs in
          let sensitivityMap :=
            fold_left (fun m p =>
                         map_set (out_id (fst p))
                           (Sensitivity.computeSensitivity inputSamples (snd p) inputNames inputIds) m)
                      (combine outputs outputValues) [] in
          let cancelled := match cancelAt with Some c => (c <=? stop)%nat | None => false end in
          let final :=
            {| status := if cancelled then Cancelled else Completed;
               currentIteration := if cancelled then 0%Z else iterations config;
               totalIterations := iterations config |} in
          mret ({| config := config; outputs := outputResults;
                   sensitivity := sensitivityMap; inputSamples := inputSamples |},
                progress ++ [final])
      end
  end.

End Sim.
End Simulator.

(* ------------------------------------------------------------------ *)
(** ** storage.ts *)

(** [Map.prototype.get] *)
Fixpoint map_get {V} (k : string) (m : list (string * V)) : option V :=
  match m with
  | [] => None
  | (k', v') :: m' => if String.eqb k k' then Some v' else map_get k m'
  end.

(** [Map.prototype.delete] *)
Fixpoint map_delete {V} (k : string) (m : list (string * V)) : list (string * V) :=
  match m with
  | [] => []
  | (k', v') :: m' => if String.eqb k k' then m' else (k', v') :: map_delete k m'
  end.

Module Storage.

(** The module-level variables of storage.ts; each [Map] is an
    association list in insertion order. *)
Record Registry {T : Type} := {
  r_inputs : list (string * DistributionInput T);   (* const _inputs *)
  r_outputs : list (string * SimulationOutput);     (* const _outputs *)
  r_simulating : bool;                              (* let _simulating *)
  r_currentIteration : Z                            (* let _currentIteration *)
}.
Arguments Registry : clear implicits.

Section Reg.
Context {T : Type}.

(** The registry when the module is loaded. *)
Definition initial : Registry T :=
  {| r_inputs := []; r_outputs := []; r_simulating := false; r_currentIteration := 0 |}.

Definition registerInput (input : DistributionInput T) (reg : Registry T) : Registry T :=
  {| r_inputs := map_set (in_id input) input (r_inputs reg); r_outputs := r_outputs reg;
     r_simulating := r_simulating reg; r_currentIteration := r_currentIteration reg |}.

(** [Array.from(_inputs.values())] *)
Definition getInputs (reg : Registry T) : list (DistributionInput T) :=
  map snd (r_inputs reg).

Definition getInput (id : string) (reg : Registry T) : option (DistributionInput T) :=
  map_get id (r_inputs reg).

Definition clearInputs (reg : Registry T) : Registry T :=
  {| r_inputs := []; r_outputs := r_outputs reg;
     r_simulating := r_simulating reg; r_currentIteration := r_currentIteration reg |}.

Definition removeInput (id : string) (reg : Registry T) : Registry T :=
  {| r_inputs := map_delete id (r_inputs reg); r_outputs := r_outputs reg;
     r_simulating := r_simulating reg; r_currentIteration := r_currentIteration reg |}.

Definition registerOutput (output : SimulationOutput) (reg : Registry T) : Registry T :=
  {| r_inputs := r_inputs reg; r_outputs := map_set (out_id output) output (r_outputs reg);
     r_simulating := r_simulating reg; r_currentIteration := r_currentIteration reg |}.

Definition getOutputs (reg : Registry T) : list SimulationOutput := map snd (r_outputs reg).

Definition clearOutputs (reg : Registry T) : Registry T :=
  {| r_inputs := r_inputs reg; r_outputs := [];
     r_simulating := r_simulating reg; r_currentIteration := r_currentIteration reg |}.

(** [clearAll()]; the [localStorage] cleanup touches none of these variables. *)
Definition clearAll (reg : Registry T) : Registry T :=
  {| r_inputs := []; r_outputs := []; r_simulating := false; r_currentIteration := 0 |}.

Definition isSimulating (reg : Registry T) : bool := r_simulating reg.

Definition setSimulating (flag : bool) (reg : Registry T) : Registry T :=
  {| r_inputs := r_inputs reg; r_outputs := r_outputs reg;
     r_simulating := flag; r_currentIteration := r_currentIteration reg |}.

Definition getCurrentIteration (reg : Registry T) : Z := r_currentIteration reg.

Definition setCurrentIteration (iter : Z) (reg : Registry T) : Registry T :=
  {| r_inputs := r_inputs reg; r_outputs := r_outputs reg;
     r_simulating := r_simulating reg; r_currentIteration := iter |}.

End Reg.
End Storage.

(* ------------------------------------------------------------------ *)
(** ** Reference notions used by the statements *)

(** [sqrt] is the real square root from here on (not [PrimFloat.sqrt]). *)
Local Abbreviation sqrt := R_sqrt.sqrt.

(** Population statistics over the reals, as the specification states
    them: mean, sum of squared deviations, variance, covariance and the
    Pearson correlation (0 when either series has zero variance). *)
Definition pmean (x : list R) : R := (fold_right Rplus 0 x / INR (length x))%R.
Definition sq_dev (m : R) (x : list R) : R :=
  fold_right (fun v acc => (v - m) ^ 2 + acc)%R 0%R x.
Definition pvar (x : list R) : R := (sq_dev (pmean x) x / INR (length x))%R.
Definition pcov (x y : list R) : R :=
  (fold_right (fun p acc => (fst p - pmean x) * (snd p - pmean y) + acc) 0
     (combine x y) / INR (length x))%R.
Definition pearson (x y : list R) : R :=
  if Req_dec_T (pvar x) 0 then 0%R
  else if Req_dec_T (pvar y) 0 then 0%R
  else (pcov x y / (sqrt (pvar x) * sqrt (pvar y)))%R.

(** A sum over a list. *)
Definition sum_of {B} (h : B -> R) (l : list B) : R :=
  fold_right (fun p acc => (h p + acc)%R) 0%R l.

(** The number of iterations [iterate] performs from iteration [iter]
    with [todo] left, when cancellation is seen from check [c] on. *)
Definition iterations_run (cancelAt : option nat) (todo iter : nat) : nat :=
  match cancelAt with None => todo | Some c => Nat.min todo (c - iter) end.

(** [config] with [iterations] set to [n]. *)
Definition with_iterations {T} (config : SimulationConfig T) (n : Z) : SimulationConfig T :=
  {| iterations := n; seed := seed config; confidenceLevel := confidenceLevel config;
     probabilityThreshold := probabilityThreshold config |}.

(** What a computation yields, its final state left out. *)
Definition outcome_value {S A} (o : outcome S A) : option (string + A) :=
  match o with
  | Ret a _ => Some (inr a)
  | Throw e _ => Some (inl e)
  | NoOutcome => None
  end.

Section Agreement.
Context {T : Type} `{JSNum T}.

(** Two states that no sampler can tell apart once the seeded generator is
    on: the same generator words and the same spare normal deviate.  They
    may differ in the [Math.random] stream, which is then never read, and
    in the division count. *)
Definition sim (s1 s2 : St T) : Prop :=
  s_rng s1 = s_rng s2 /\ useSeededRng s1 = true /\ useSeededRng s2 = true /\
  hasSpare s1 = hasSpare s2 /\ spare s1 = spare s2.

Definition outcome_rel {A} (o1 o2 : outcome (St T) A) : Prop :=
  match o1, o2 with
  | Ret a s1, Ret b s2 => a = b /\ sim s1 s2
  | Throw e s1, Throw f s2 => e = f /\ sim s1 s2
  | NoOutcome, NoOutcome => True
  | _, _ => False
  end.

(** [m] yields the same outcome from any two agreeing states. *)
Definition Det {A} (m : M (St T) A) : Prop :=
  forall s1 s2, sim s1 s2 -> outcome_rel (m s1) (m s2).

End Agreement.

(** A small workbook: one uniform input on [0, 1], one output cell that
    reads the input back (every sync succeeds), a configuration with
    [iters] iterations, and an initial state on [Math.random]. *)
Definition ex_input : DistributionInput R :=
  {| in_id := "x"; in_cellAddress := "A1"; in_type := "uniform";
     in_params := [("min"%string, PNum 0%R); ("max"%string, PNum 1%R)]; in_name := "x" |}.
Definition ex_output : SimulationOutput :=
  {| out_id := "y"; out_cellAddress := "B1"; out_name := "y" |}.
Definition ex_config (iters : Z) : SimulationConfig R :=
  {| iterations := iters; seed := 42; confidenceLevel := (95 / 100)%R;
     probabilityThreshold := 0%R |}.
Definition ex_excel : Excel R :=
  {| xl_open := None; xl_step := fun _ row => inr (fun _ => CNum (hd 0%R row));
     xl_restore := None |}.
Definition ex_state : St R :=
  {| s_rng := (0, 0, 0, 0)%Z; useSeededRng := false; hasSpare := false; spare := 0%R;
     mathRandom := fun _ => (1 / 2)%R; mrPos := 0; zeroDivs := 0 |}.

(** The initial state of [st_three_quarters] is [ex_state]'s, with a
    [Math.random] stream that always returns 0.75. *)
Definition st_three_quarters : St R :=
  {| s_rng := (0, 0, 0, 0)%Z; useSeededRng := false; hasSpare := false; spare := 0%R;
     mathRandom := fun _ => (3 / 4)%R; mrPos := 0; zeroDivs := 0 |}.

(** A call of the storage.ts API. *)
Inductive StorageCall {T : Type} :=
| CRegisterInput (input : DistributionInput T)
| CRemoveInput (id : string)
| CClearInputs
| CRegisterOutput (output : SimulationOutput)
| CClearOutputs
| CClearAll
| CSetSimulating (flag : bool)
| CSetCurrentIteration (iter : Z).
Arguments StorageCall : clear implicits.

Definition storage_call {T} (c : StorageCall T) (reg : Storage.Registry T) : Storage.Registry T :=
  match c with
  | CRegisterInput i => Storage.registerInput i reg
  | CRemoveInput id => Storage.removeInput id reg
  | CClearInputs => Storage.clearInputs reg
  | CRegisterOutput o => Storage.registerOutput o reg
  | CClearOutputs => Storage.clearOutputs reg
  | CClearAll => Storage.clearAll reg
  | CSetSimulating b => Storage.setSimulating b reg
  | CSetCurrentIteration k => Storage.setCurrentIteration k reg
  end.

(** The registry after the calls [calls], in order, from the initial one. *)
Definition storage_after {T} (calls : list (StorageCall T)) : Storage.Registry T :=
  fold_left (fun reg c => storage_call c reg) calls Storage.initial.

(** Every entry of the map [m] is stored under its own id [key v], and no id
    occurs twice. *)
Definition keyed {V} (key : V -> string) (m : list (string * V)) : Prop :=
  Forall (fun p => fst p = key (snd p)) m /\ NoDup (map fst m).

Definition registry_ok {T} (reg : Storage.Registry T) : Prop :=
  keyed in_id (Storage.r_inputs reg) /\ keyed out_id (Storage.r_outputs reg).

(** The value range of one [Uint32Array] cell. *)
Definition in32 (z : Z) : Prop := (0 <= z < 2 ^ 32)%Z.

(** The iterations of [runSimulation] after which [onProgress] is called,
    and the update it receives there when the run is not cancelled. *)
Definition progress_due {T} (config : SimulationConfig T) (i : nat) : bool :=
  (Z.eqb (Z.of_nat i mod 10) 0 || Z.eqb (Z.of_nat i) (iterations config - 1))%Z.

Definition running_at {T} (config : SimulationConfig T) (i : nat) : SimulationProgress :=
  {| status := Running; currentIteration := (Z.of_nat i + 1)%Z;
     totalIterations := iterations config |}.

(** [a <= b] on the reals, and the number of values at most [x]: the
    empirical distribution function, unnormalised. *)
Definition Rleb (a b : R) : bool := if Rle_dec a b then true else false.
Definition count_le (x : R) (l : list R) : nat := length (filter (fun v => Rleb v x) l).

(* ------------------------------------------------------------------ *)
(** * Facts *)

Local Open Scope R_scope.

(** ** Comparisons and rounding over the reals *)

Lemma Rltb_spec a b : Rltb a b = true <-> a < b.
Proof. unfold Rltb; destruct (Rlt_dec a b); split; intros; auto; discriminate || contradiction. Qed.
Lemma Rltb_false a b : Rltb a b = false <-> ~ a < b.
Proof. unfold Rltb; destruct (Rlt_dec a b); split; intros; auto; discriminate || contradiction. Qed.
Lemma Reqb_spec a b : Reqb a b = true <-> a = b.
Proof. unfold Reqb; destruct (Req_dec_T a b); split; intros; auto; discriminate || contradiction. Qed.
Lemma Reqb_false a b : Reqb a b = false <-> a <> b.
Proof. unfold Reqb; destruct (Req_dec_T a b); split; intros; auto; discriminate || contradiction. Qed.

Lemma Int_part_unique (z : Z) (r : R) : IZR z <= r < IZR z + 1 -> Int_part r = z.
Proof.
  intros [H1 H2]. destruct (base_Int_part r) as [H3 H4].
  assert (A : (z < Int_part r + 1)%Z).
  { apply lt_IZR. rewrite plus_IZR. lra. }
  assert (B : (Int_part r < z + 1)%Z).
  { apply lt_IZR. rewrite plus_IZR. lra. }
  lia.
Qed.

(** ** statistics.ts: percentile and computeStatistics *)

Lemma percentile_interp (sorted : list R) (p : R) (k : nat) :
  (2 <= length sorted)%nat ->
  let r := p * INR (length sorted - 1) in
  INR k <= r < INR k + 1 ->
  Statistics.percentile sorted p
  = nth k sorted 0 + (r - INR k) * (nth (S k) sorted 0 - nth k sorted 0).
Proof.
  intros Hn r Hk. unfold Statistics.percentile.
  destruct (Nat.eqb_spec (length sorted) 0); [lia|].
  destruct (Nat.eqb_spec (length sorted) 1); [lia|].
  cbn [n_mul n_of_nat n_of_Z n_sub n_add n_zero Rnum m_floor m_ceil Rmath].
  rewrite <- INR_IZR_INZ. fold r.
  assert (Hlo : Int_part r = Z.of_nat k).
  { apply Int_part_unique. rewrite <- INR_IZR_INZ. lra. }
  rewrite Hlo, Nat2Z.id, <- INR_IZR_INZ.
  destruct (Req_dec_T r (INR k)) as [E|E].
  - assert (Hhi : Int_part (- r) = (- Z.of_nat k)%Z).
    { apply Int_part_unique. rewrite opp_IZR, <- INR_IZR_INZ. lra. }
    rewrite Hhi, Z.opp_involutive, Nat2Z.id. rewrite E. ring.
  - assert (Hhi : Int_part (- r) = (- Z.of_nat k - 1)%Z).
    { apply Int_part_unique. rewrite minus_IZR, opp_IZR, <- INR_IZR_INZ. lra. }
    rewrite Hhi.
    replace (- (- Z.of_nat k - 1))%Z with (Z.of_nat (S k)) by lia.
    rewrite Nat2Z.id. ring.
Qed.

(** C4: [percentile] interpolates linearly between the order statistics
    at positions [k] and [k + 1] around the fractional rank [p * (n - 1)]
    when [n >= 2]; it returns 0 on the empty array and the element on a
    one-element array; and percentile([1,2,3,4], 0.5) = 2.5,
    percentile([1,2,3], 0.5) = 2, percentile([5], 0.5) = 5. *)
Theorem percentile_linear_interpolation :
  (forall (sorted : list R) (p : R) (k : nat),
     (2 <= length sorted)%nat ->
     INR k <= p * INR (length sorted - 1) < INR k + 1 ->
     Statistics.percentile sorted p
     = nth k sorted 0
       + (p * INR (length sorted - 1) - INR k) * (nth (S k) sorted 0 - nth k sorted 0)) /\
  (forall p, Statistics.percentile [] p = 0) /\
  (forall x p, Statistics.percentile [x] p = x) /\
  Statistics.percentile [1; 2; 3; 4] (1 / 2) = 5 / 2 /\
  Statistics.percentile [1; 2; 3] (1 / 2) = 2 /\
  Statistics.percentile [5] (1 / 2) = 5.
Proof.
  split; [intros; apply percentile_interp; auto|].
  split; [reflexivity|]. split; [reflexivity|].
  split; [|split; [|reflexivity]].
  - rewrite (percentile_interp _ _ 1); cbn [length nth Nat.sub INR]; [lra|lia|].
    cbn [length Nat.sub INR]. lra.
  - rewrite (percentile_interp _ _ 1); cbn [length nth Nat.sub INR]; [lra|lia|].
    cbn [length Nat.sub INR]. lra.
Qed.

(** C5: [computeStatistics []] is the all-zero record with count 0; on
    [[v]] every location statistic (mean, median, mode, minimum, maximum,
    percentiles, confidence bounds) is [v], every spread statistic
    (stdDev, variance, skewness, kurtosis) is 0, and the count is 1. *)
Theorem computeStatistics_empty_and_singleton (cl v : R) :
  Statistics.computeStatistics [] cl =
    {| minimum := 0; maximum := 0; st_mean := 0; median := 0; mode := 0;
       st_stdDev := 0; variance := 0; skewness := 0; kurtosis := 0;
       percentiles := {| p1 := 0; p5 := 0; p10 := 0; p25 := 0; p50 := 0;
                         p75 := 0; p90 := 0; p95 := 0; p99 := 0 |};
       confidenceInterval := (0, 0); probNegative := 0; count := 0 |} /\
  let s := Statistics.computeStatistics [v] cl in
  st_mean s = v /\ median s = v /\ mode s = v /\ minimum s = v /\ maximum s = v /\
  percentiles s = {| p1 := v; p5 := v; p10 := v; p25 := v; p50 := v;
                     p75 := v; p90 := v; p95 := v; p99 := v |} /\
  confidenceInterval s = (v, v) /\
  st_stdDev s = 0 /\ variance s = 0 /\ skewness s = 0 /\ kurtosis s = 0 /\
  count s = 1%nat.
Proof.
  split; [reflexivity|].
  unfold Statistics.computeStatistics. cbn.
  replace ((0 + (v - (0 + v) / 1) * (v - (0 + v) / 1)) / 1) with 0 by field.
  rewrite sqrt_0.
  assert (Hf : Rltb 0 0 = false) by (apply Rltb_false; lra).
  rewrite Hf.
  repeat split; field.
Qed.

(** ** The insertion sort modelling [Array.prototype.sort] *)
Section SortFacts.
Context {T : Type} `{JSNum T}.

Lemma js_insert_perm {A} (cmp : A -> A -> T) x l :
  Permutation (js_insert cmp x l) (x :: l).
Proof.
  induction l as [|y l IH]; cbn; [auto|].
  destruct (n_zero <# cmp x y)%js; [|auto].
  rewrite IH. apply perm_swap.
Qed.

Lemma js_sort_perm {A} (cmp : A -> A -> T) l : Permutation (js_sort cmp l) l.
Proof.
  induction l as [|x l IH]; cbn; [auto|].
  rewrite js_insert_perm. auto.
Qed.
End SortFacts.

Section KeySort.
Variable A : Type.
Variable key : A -> R.
Variable cmp : A -> A -> R.
Hypothesis cmp_key : forall a b, cmp a b = key b - key a.

Lemma insert_sorted x l :
  Sorted (fun a b => key b <= key a) l ->
  Sorted (fun a b => key b <= key a) (js_insert cmp x l).
Proof.
  induction l as [|y l IH]; intros Hs; cbn; [auto|].
  cbn [n_ltb n_zero Rnum]. rewrite cmp_key.
  apply Sorted_inv in Hs as [Hs Hd].
  destruct (Rltb 0 (key y - key x)) eqn:E.
  - apply Rltb_spec in E. constructor; [now apply IH|].
    destruct l as [|z l]; cbn.
    + constructor. lra.
    + cbn [n_ltb n_zero Rnum]. rewrite cmp_key.
      destruct (Rltb 0 (key z - key x)); constructor.
      * now inversion Hd.
      * lra.
  - apply Rltb_false in E. constructor; [constructor; auto|]. constructor. lra.
Qed.

Lemma sort_sorted l : Sorted (fun a b => key b <= key a) (js_sort cmp l).
Proof. induction l; cbn; [constructor|]. now apply insert_sorted. Qed.

Lemma insert_filter c x l :
  filter (fun r => Reqb (key r) c) (js_insert cmp x l)
  = filter (fun r => Reqb (key r) c) (x :: l).
Proof.
  induction l as [|y l IH]; cbn; [reflexivity|].
  cbn [n_ltb n_zero Rnum]. rewrite cmp_key.
  destruct (Rltb 0 (key y - key x)) eqn:E; [|reflexivity].
  apply Rltb_spec in E. cbn. rewrite IH. cbn.
  destruct (Reqb (key x) c) eqn:Ex, (Reqb (key y) c) eqn:Ey; auto.
  apply Reqb_spec in Ex, Ey. lra.
Qed.

Lemma sort_filter c l :
  filter (fun r => Reqb (key r) c) (js_sort cmp l)
  = filter (fun r => Reqb (key r) c) l.
Proof.
  induction l as [|x l IH]; cbn; [reflexivity|].
  rewrite insert_filter. cbn. now rewrite IH.
Qed.
End KeySort.

(** ** sensitivity.ts: the coefficients are Pearson correlations *)

Lemma fold_left_Rplus_shift {B} (g : B -> R) l a :
  fold_left (fun s v => s + g v) l a = a + fold_right (fun v acc => g v + acc) 0 l.
Proof.
  revert a; induction l as [|v l IH]; intros a; cbn; [ring|].
  rewrite IH. ring.
Qed.

Lemma mean_R x : Sensitivity.mean x = pmean x.
Proof.
  unfold Sensitivity.mean, pmean, n_of_nat. cbn [n_add n_div n_zero n_of_Z Rnum].
  rewrite <- INR_IZR_INZ.
  rewrite (fold_left_Rplus_shift (fun v => v)). f_equal. ring_simplify.
  induction x; cbn; auto.
Qed.

Lemma stdDev_R x m : Sensitivity.stdDev x m = sqrt (sq_dev m x / INR (length x)).
Proof.
  unfold Sensitivity.stdDev, sq_dev, n_of_nat.
  cbn [n_add n_sub n_mul n_div n_zero n_of_Z n_sqrt Rnum].
  rewrite <- INR_IZR_INZ.
  rewrite (fold_left_Rplus_shift (fun v => (v - m) * (v - m))).
  f_equal. f_equal. rewrite Rplus_0_l.
  induction x as [|v l IH]; cbn [fold_right]; [auto|]. rewrite IH. ring.
Qed.

Lemma sq_dev_nonneg m x : 0 <= sq_dev m x.
Proof.
  induction x as [|v l IH]; cbn [sq_dev fold_right]; [lra|].
  pose proof (pow2_ge_0 (v - m)). fold (sq_dev m l). lra.
Qed.

Lemma Rdiv_nonneg a b : 0 <= a -> 0 <= b -> 0 <= a / b.
Proof.
  intros Ha Hb. unfold Rdiv. destruct (Req_dec_T b 0) as [->|Hne].
  - rewrite Rinv_0. lra.
  - apply Rmult_le_pos; auto. left. apply Rinv_0_lt_compat. lra.
Qed.

Lemma pvar_nonneg x : 0 <= pvar x.
Proof. apply Rdiv_nonneg; [apply sq_dev_nonneg|apply pos_INR]. Qed.

Lemma sqrt_zero_iff v : 0 <= v -> (sqrt v = 0 <-> v = 0).
Proof.
  intros Hv; split; intros E; [now apply sqrt_eq_0|subst; apply sqrt_0].
Qed.

(** A sum over [combine x y] of a function of the first (second)
    components is the sum over [x] ([y]) when the lengths agree. *)
Lemma fold_combine_fst (f : R -> R) x y :
  length x = length y ->
  fold_right (fun (p : R * R) acc => f (fst p) + acc) 0 (combine x y) = fold_right (fun v acc => f v + acc) 0 x.
Proof.
  revert y; induction x as [|a x IH]; intros [|b y] E; cbn in *; try lia; auto.
  rewrite IH; auto.
Qed.

Lemma fold_combine_snd (f : R -> R) x y :
  length x = length y ->
  fold_right (fun (p : R * R) acc => f (snd p) + acc) 0 (combine x y) = fold_right (fun v acc => f v + acc) 0 y.
Proof.
  revert y; induction x as [|a x IH]; intros [|b y] E; cbn in *; try lia; auto.
  rewrite IH; auto.
Qed.

Lemma SRC_pearson x y :
  length x = length y ->
  Sensitivity.standardisedRegressionCoefficient x y = pearson x y.
Proof.
  intros Hl. unfold Sensitivity.standardisedRegressionCoefficient, pearson.
  rewrite !mean_R, !stdDev_R. fold (pvar x) (pvar y).
  cbn [n_eqb n_zero n_add n_sub n_mul n_div n_of_Z Rnum].
  destruct (Req_dec_T (pvar x) 0) as [Ex|Ex].
  - rewrite Ex, sqrt_0. unfold Reqb. destruct (Req_dec_T 0 0); [reflexivity|congruence].
  - assert (Sx : Reqb (sqrt (pvar x)) 0 = false).
    { apply Reqb_false. rewrite sqrt_zero_iff; auto using pvar_nonneg. }
    rewrite Sx. cbn [orb].
    destruct (Req_dec_T (pvar y) 0) as [Ey|Ey].
    + rewrite Ey, sqrt_0. unfold Reqb. destruct (Req_dec_T 0 0); [reflexivity|congruence].
    + assert (Sy : Reqb (sqrt (pvar y)) 0 = false).
      { apply Reqb_false. rewrite sqrt_zero_iff; auto using pvar_nonneg. }
      rewrite Sy. unfold pcov, n_of_nat. cbn [n_of_Z Rnum]. rewrite <- INR_IZR_INZ.
      rewrite (fold_left_Rplus_shift (fun p => (fst p - pmean x) * (snd p - pmean y))).
      rewrite Rplus_0_l. reflexivity.
Qed.

(** Cauchy-Schwarz over a list. *)
Section CauchySchwarz.
Variable B : Type.
Variables f g : B -> R.

Lemma sum_quadratic l t :
  sum_of (fun p => (f p * t + g p) ^ 2) l
  = sum_of (fun p => f p * f p) l * t ^ 2 + 2 * sum_of (fun p => f p * g p) l * t
    + sum_of (fun p => g p * g p) l.
Proof.
  unfold sum_of. induction l as [|p l IH]; cbn [fold_right]; [ring|].
  rewrite IH. ring.
Qed.

Lemma sum_squares_nonneg (h : B -> R) l : 0 <= sum_of (fun p => h p ^ 2) l.
Proof.
  unfold sum_of. induction l as [|p l IH]; cbn [fold_right]; [lra|].
  pose proof (pow2_ge_0 (h p)). lra.
Qed.

Lemma cauchy_schwarz l :
  0 < sum_of (fun p => f p * f p) l ->
  (sum_of (fun p => f p * g p) l) ^ 2
  <= sum_of (fun p => f p * f p) l * sum_of (fun p => g p * g p) l.
Proof.
  set (A := sum_of (fun p => f p * f p) l).
  set (Bs := sum_of (fun p => f p * g p) l).
  set (C := sum_of (fun p => g p * g p) l).
  intros HA.
  pose proof (sum_squares_nonneg (fun p => f p * (- Bs / A) + g p) l) as Q.
  cbv beta in Q. rewrite sum_quadratic in Q. fold A Bs C in Q.
  assert (E : A * (- Bs / A) ^ 2 + 2 * Bs * (- Bs / A) + C = C - Bs ^ 2 / A)
    by (field; lra).
  rewrite E in Q.
  assert (E2 : Bs ^ 2 = A * (Bs ^ 2 / A)) by (field; lra).
  rewrite E2. apply Rmult_le_compat_l; lra.
Qed.
End CauchySchwarz.

Lemma pearson_bounded x y :
  length x = length y -> -1 <= pearson x y <= 1.
Proof.
  intros Hl. unfold pearson.
  destruct (Req_dec_T (pvar x) 0) as [Ex|Ex]; [lra|].
  destruct (Req_dec_T (pvar y) 0) as [Ey|Ey]; [lra|].
  pose proof (pvar_nonneg x) as Px. pose proof (pvar_nonneg y) as Py.
  assert (Hn : 0 < INR (length x)).
  { destruct (length x) eqn:L; [|apply lt_0_INR; lia].
    exfalso. apply Ex. unfold pvar. rewrite L. cbn. unfold Rdiv. rewrite Rinv_0. ring. }
  set (n := INR (length x)) in *.
  set (fx := fun p : R * R => fst p - pmean x).
  set (gy := fun p : R * R => snd p - pmean y).
  assert (HA : sum_of (fun p => fx p * fx p) (combine x y) = sq_dev (pmean x) x).
  { unfold sum_of, sq_dev, fx.
    rewrite (fold_combine_fst (fun v => (v - pmean x) * (v - pmean x))) by auto.
    clear. generalize (pmean x) as m. induction x as [|v l IH]; cbn [fold_right]; [auto|]. intro m. rewrite IH. ring. }
  assert (HC : sum_of (fun p => gy p * gy p) (combine x y) = sq_dev (pmean y) y).
  { unfold sum_of, sq_dev, gy.
    rewrite (fold_combine_snd (fun v => (v - pmean y) * (v - pmean y))) by auto.
    clear. generalize (pmean y) as m. induction y as [|v l IH]; cbn [fold_right]; [auto|]. intro m. rewrite IH. ring. }
  assert (HB : pcov x y = sum_of (fun p => fx p * gy p) (combine x y) / n) by reflexivity.
  assert (Hx : pvar x = sq_dev (pmean x) x / n) by reflexivity.
  assert (Hy : pvar y = sq_dev (pmean y) y / n) by (unfold pvar, n; now rewrite Hl).
  rewrite <- HA in Hx. rewrite <- HC in Hy.
  set (A := sum_of (fun p => fx p * fx p) (combine x y)) in *.
  set (Bs := sum_of (fun p => fx p * gy p) (combine x y)) in *.
  set (C := sum_of (fun p => gy p * gy p) (combine x y)) in *.
  assert (PA : 0 < A).
  { assert (0 <= A) by (rewrite HA; apply sq_dev_nonneg).
    destruct (Req_dec_T A 0) as [Z0|]; [|lra].
    exfalso; apply Ex. rewrite Hx, Z0. unfold Rdiv. ring. }
  assert (PC : 0 < C).
  { assert (0 <= C) by (rewrite HC; apply sq_dev_nonneg).
    destruct (Req_dec_T C 0) as [Z0|]; [|lra].
    exfalso; apply Ey. rewrite Hy, Z0. unfold Rdiv. ring. }
  pose proof (cauchy_schwarz _ fx gy (combine x y) PA) as CS. fold A Bs C in CS.
  assert (Sx : 0 < sqrt (pvar x)) by (apply sqrt_lt_R0; lra).
  assert (Sy : 0 < sqrt (pvar y)) by (apply sqrt_lt_R0; lra).
  set (q := pcov x y / (sqrt (pvar x) * sqrt (pvar y))).
  assert (Hq : q ^ 2 = Bs ^ 2 / (A * C)).
  { unfold q.
    replace ((pcov x y / (sqrt (pvar x) * sqrt (pvar y))) ^ 2)
      with (pcov x y ^ 2 / ((sqrt (pvar x) * sqrt (pvar x)) * (sqrt (pvar y) * sqrt (pvar y))))
      by (field; lra).
    rewrite !sqrt_sqrt by lra. rewrite HB, Hx, Hy. field. lra. }
  assert (Hq1 : q ^ 2 <= 1).
  { rewrite Hq. assert (0 < A * C) by nra.
    unfold Rdiv. rewrite <- (Rinv_r (A * C)) by lra.
    apply Rmult_le_compat_r; [left; now apply Rinv_0_lt_compat|]. lra. }
  nra.
Qed.

Lemma upd_length {A} (l : list A) i v : length (upd l i v) = length l.
Proof. revert i; induction l as [|a l IH]; intros [|i]; cbn; auto. Qed.

Lemma fold_upd_length {A B} (g : B -> nat) (a : A) grp result :
  length (fold_left (fun r p => upd r (g p) a) grp result) = length result.
Proof.
  revert result; induction grp as [|p grp IH]; intros result; cbn; [auto|].
  rewrite IH. apply upd_length.
Qed.

Lemma rank_loop_length f i rest (result : list R) :
  length (Sensitivity.rank_loop f i rest result) = length result.
Proof.
  revert i rest result; induction f as [|f IH]; intros i rest result; cbn; [auto|].
  destruct rest as [|[v idx] tl]; [auto|].
  rewrite IH, (fold_upd_length snd). apply upd_length.
Qed.

Lemma ranks_length (x : list R) : length (Sensitivity.ranks x) = length x.
Proof. unfold Sensitivity.ranks. rewrite rank_loop_length. apply repeat_length. Qed.

Lemma column_length (rows : list (list R)) j n : length (Sensitivity.column rows j n) = n.
Proof. unfold Sensitivity.column. rewrite length_map. apply length_seq. Qed.

(** C10 (amended): in exact arithmetic every result of
    [computeSensitivity] has its coefficient and its rank correlation in
    [-1, 1] (both are Pearson correlations, bounded by Cauchy-Schwarz). *)
Theorem computeSensitivity_bounded rows ys names ids :
  Forall (fun r => -1 <= coefficient r <= 1 /\ -1 <= rankCorrelation r <= 1)
         (Sensitivity.computeSensitivity rows ys names ids).
Proof.
  unfold Sensitivity.computeSensitivity.
  destruct ((length ys <? 3)%nat || (length names =? 0)%nat); [constructor|].
  apply (Permutation_Forall (Permutation_sym (js_sort_perm _ _))).
  unfold Sensitivity.sensitivityResults. apply Forall_map, Forall_forall. intros j _.
  cbn [coefficient rankCorrelation]. unfold Sensitivity.spearmanRankCorrelation.
  rewrite !SRC_pearson by (rewrite ?ranks_length; apply column_length).
  split; apply pearson_bounded; rewrite ?ranks_length; apply column_length.
Qed.

(** C10 (counterexample): in IEEE binary64, as JS computes it, the
    coefficient of the column [0; 1; 3] against the output [0; 1; 3]
    exceeds 1 (it is 1.0000000000000002). *)
Lemma src_float_exceeds_one :
  Exists (fun r => PrimFloat.ltb 1%float (coefficient r) = true)
    (Sensitivity.computeSensitivity [[0%float]; [1%float]; [3%float]]
       [0%float; 1%float; 3%float] ["a"%string] ["a"%string]).
Proof.
  apply Exists_exists. eexists. split.
  - vm_compute. left. reflexivity.
  - vm_compute. reflexivity.
Qed.

(** ** sensitivity.ts: the results of computeSensitivity *)

Lemma guard_false (ys : list R) (names : list string) :
  (3 <= length ys)%nat -> names <> [] ->
  ((length ys <? 3)%nat || (length names =? 0)%nat) = false.
Proof.
  intros H1 H2. apply orb_false_iff. split; [apply Nat.ltb_ge; lia|].
  apply Nat.eqb_neq. destruct names; [congruence|cbn; lia].
Qed.

(** C6: [computeSensitivity] returns [] when the output series has fewer
    than 3 elements or there are no inputs; otherwise its results are, up
    to order, one per input, each with that input's id and name and the
    Pearson correlation (population covariance over the product of the
    population standard deviations, 0 on zero variance) of the input's
    column with the output series. *)
Theorem computeSensitivity_pearson (rows : list (list R)) ys names ids :
  ((length ys < 3)%nat \/ names = [] ->
   Sensitivity.computeSensitivity rows ys names ids = []) /\
  ((3 <= length ys)%nat -> names <> [] ->
   Permutation
     (map (fun r => (inputId r, inputName r, coefficient r))
          (Sensitivity.computeSensitivity rows ys names ids))
     (map (fun j => (nth_error ids j, nth_error names j,
                     pearson (Sensitivity.column rows j (length ys)) ys))
          (seq 0 (length names)))).
Proof.
  split.
  - unfold Sensitivity.computeSensitivity. intros [H|H].
    + apply Nat.ltb_lt in H. now rewrite H.
    + subst names. now rewrite orb_true_r.
  - intros H1 H2. unfold Sensitivity.computeSensitivity. rewrite guard_false by auto.
    transitivity (map (fun r => (inputId r, inputName r, coefficient r))
                      (Sensitivity.sensitivityResults rows ys names ids)).
    { apply Permutation_map, js_sort_perm. }
    unfold Sensitivity.sensitivityResults. rewrite map_map.
    erewrite map_ext; [apply Permutation_refl|]. intros j. cbn beta.
    cbn [inputId inputName coefficient].
    now rewrite SRC_pearson by apply column_length.
Qed.

Lemma computeSensitivity_pearson_witness :
  (3 <= length [0; 1; 2])%nat /\ ["a"%string] <> [] /\
  Permutation
    (map (fun r => (inputId r, inputName r, coefficient r))
         (Sensitivity.computeSensitivity [[0]; [1]; [2]] [0; 1; 2] ["a"%string] ["i"%string]))
    (map (fun j => (nth_error ["i"%string] j, nth_error ["a"%string] j,
                    pearson (Sensitivity.column [[0]; [1]; [2]] j 3) [0; 1; 2]))
         (seq 0 1)).
Proof.
  assert (H1 : (3 <= length [0; 1; 2])%nat) by (cbn; lia).
  assert (H2 : ["a"%string] <> []) by discriminate.
  split; [exact H1|]. split; [exact H2|].
  exact (proj2 (computeSensitivity_pearson [[0]; [1]; [2]] [0; 1; 2] ["a"%string] ["i"%string]) H1 H2).
Defined.

(** C7: the results of [computeSensitivity] are sorted by descending
    absolute coefficient, and the results with a given absolute
    coefficient come in input order (the order of [sensitivityResults]). *)
Theorem computeSensitivity_sorted_stable (rows : list (list R)) ys names ids :
  Sorted (fun a b => Rabs (coefficient b) <= Rabs (coefficient a))
         (Sensitivity.computeSensitivity rows ys names ids) /\
  ((3 <= length ys)%nat -> names <> [] ->
   forall c,
     filter (fun r => Reqb (Rabs (coefficient r)) c)
            (Sensitivity.computeSensitivity rows ys names ids)
     = filter (fun r => Reqb (Rabs (coefficient r)) c)
              (Sensitivity.sensitivityResults rows ys names ids)).
Proof.
  assert (Hk : forall a b : SensitivityResult R,
            Sensitivity.byAbsCoefficient a b = Rabs (coefficient b) - Rabs (coefficient a))
    by reflexivity.
  split.
  - unfold Sensitivity.computeSensitivity.
    destruct (_ || _); [constructor|].
    apply (sort_sorted _ (fun r => Rabs (coefficient r)) _ Hk).
  - intros H1 H2 c. unfold Sensitivity.computeSensitivity. rewrite guard_false by auto.
    apply (sort_filter _ (fun r => Rabs (coefficient r)) _ Hk).
Qed.

Lemma computeSensitivity_sorted_stable_witness :
  (3 <= length [0; 1; 2])%nat /\ ["a"%string; "b"%string] <> [] /\
  filter (fun r => Reqb (Rabs (coefficient r)) 1)
         (Sensitivity.computeSensitivity [[0; 0]; [1; 1]; [2; 2]] [0; 1; 2]
            ["a"%string; "b"%string] ["i"%string; "j"%string])
  = filter (fun r => Reqb (Rabs (coefficient r)) 1)
           (Sensitivity.sensitivityResults [[0; 0]; [1; 1]; [2; 2]] [0; 1; 2]
              ["a"%string; "b"%string] ["i"%string; "j"%string]).
Proof.
  assert (H1 : (3 <= length [0; 1; 2])%nat) by (cbn; lia).
  assert (H2 : ["a"%string; "b"%string] <> []) by discriminate.
  split; [exact H1|]. split; [exact H2|].
  exact (proj2 (computeSensitivity_sorted_stable [[0; 0]; [1; 1]; [2; 2]] [0; 1; 2]
                  ["a"%string; "b"%string] ["i"%string; "j"%string]) H1 H2 1).
Defined.

(** ** statistics.ts: the bins of computeHistogram *)

Lemma sort_ascending (l : list R) :
  StronglySorted (fun a b => - b <= - a) (js_sort Statistics.ascending l).
Proof.
  assert (Hk : forall a b : R, Statistics.ascending a b = (- b) - (- a)).
  { intros a b. unfold Statistics.ascending. cbn [n_sub Rnum]. ring. }
  pose proof (sort_sorted _ (fun v => - v) _ Hk l) as S.
  apply Sorted_StronglySorted in S; [exact S|]. intros x y z; cbv beta; lra.
Qed.

Lemma sorted_between (l : list R) d x :
  StronglySorted (fun a b => - b <= - a) l -> In x l ->
  nth 0 l d <= x <= nth (length l - 1) l d.
Proof.
  intros SS; induction SS as [|a l SS IH Hall]; [contradiction|].
  intros Hx. destruct l as [|b l'].
  - destruct Hx as [<-|[]]. cbn. lra.
  - rewrite Forall_forall in Hall.
    replace (length (a :: b :: l') - 1)%nat with (S (length (b :: l') - 1)%nat)
      by (cbn; lia).
    assert (Hk : (length (b :: l') - 1 < length (b :: l'))%nat) by (cbn; lia).
    set (k := (length (b :: l') - 1)%nat) in *. clearbody k.
    change (nth (S k) (a :: b :: l') d) with (nth k (b :: l') d).
    change (nth 0 (a :: b :: l') d) with a.
    destruct Hx as [<-|Hx].
    + pose proof (Hall _ (nth_In _ d Hk)). split; lra.
    + destruct (IH Hx) as [H1 H2]. split; [|exact H2].
      pose proof (Hall _ Hx). lra.
Qed.

Lemma sturges_lo lo hi n : (lo <= Statistics.sturges lo hi n)%Z.
Proof. unfold Statistics.sturges. lia. Qed.

Lemma upd_bump (r : list (HistogramBin R)) i b :
  nth_error r i = Some b ->
  map x0 (upd r i (Statistics.bump b)) = map x0 r /\
  map x1 (upd r i (Statistics.bump b)) = map x1 r /\
  list_sum (map h_count (upd r i (Statistics.bump b))) = S (list_sum (map h_count r)).
Proof.
  revert i; induction r as [|c r IH]; intros [|i] E; cbn in E; try discriminate.
  - injection E as ->. cbn. auto.
  - cbn [upd map]. destruct (IH i E) as (E0 & E1 & E2). rewrite E0, E1.
    unfold list_sum in *. cbn [fold_right]. rewrite E2. auto.
Qed.

(** Over the reals, every value at least [lo] finds its bin: the loop
    [result[idx].count++] does not throw, adds one to the counts per
    value and leaves the bounds of the bins as they are. *)
Lemma count_into_ok sorted (lo bw : R) bins result :
  0 < bw -> Z.to_nat bins = length result -> (1 <= bins)%Z ->
  Forall (fun v => lo <= v) sorted ->
  exists r, Statistics.count_into sorted lo bw bins result = inr r /\
    map x0 r = map x0 result /\ map x1 r = map x1 result /\
    list_sum (map h_count r) = (list_sum (map h_count result) + length sorted)%nat.
Proof.
  intros Hbw Hlen Hb F. revert result Hlen.
  induction F as [|v sorted Hv F IH]; intros result Hlen; cbn [Statistics.count_into length].
  { exists result. rewrite Nat.add_0_r. auto. }
  cbn [m_floor n_sub n_div Rmath Rnum].
  set (i := Int_part ((v - lo) / bw)).
  assert (Hi : (0 <= i)%Z).
  { destruct (base_Int_part ((v - lo) / bw)) as [_ H2]. fold i in H2.
    assert (0 <= (v - lo) / bw) by (apply Rdiv_nonneg; lra).
    assert (IZR (-1) < IZR i) by lra. apply lt_IZR in H0. lia. }
  set (j := if (i >=? bins)%Z then (bins - 1)%Z else i).
  assert (Hj0 : (0 <= j)%Z) by (unfold j; destruct (Z.geb_spec i bins); lia).
  assert (Hj : (Z.to_nat j < length result)%nat).
  { unfold j. destruct (Z.geb_spec i bins); lia. }
  replace (j <? 0)%Z with false by (symmetry; apply Z.ltb_ge; exact Hj0).
  destruct (nth_error result (Z.to_nat j)) as [b|] eqn:E.
  - destruct (upd_bump result _ b E) as (E0 & E1 & E2).
    destruct (IH (upd result (Z.to_nat j) (Statistics.bump b)))
      as (r & Er & F0 & F1 & F2); [rewrite upd_length; exact Hlen|].
    exists r. rewrite Er, F0, F1, F2, E0, E1, E2. repeat split; lia.
  - apply nth_error_None in E. lia.
Qed.

Lemma sorted_first_last (values : list R) (lo hi : R) :
  In lo values -> In hi values -> Forall (fun v => lo <= v <= hi) values ->
  let sorted := js_sort Statistics.ascending values in
  nth 0 sorted 0 = lo /\ nth (length values - 1) sorted 0 = hi /\
  Forall (fun v => lo <= v) sorted.
Proof.
  intros Hlo Hhi F sorted.
  pose proof (js_sort_perm Statistics.ascending values) as P. fold sorted in P.
  pose proof (sort_ascending values) as S. fold sorted in S.
  rewrite Forall_forall in F.
  assert (Hn : (0 < length sorted)%nat).
  { rewrite (Permutation_length P). destruct values; [contradiction|cbn; lia]. }
  assert (In0 : In (nth 0 sorted 0) values).
  { apply (Permutation_in _ P), nth_In. exact Hn. }
  assert (InL : In (nth (length values - 1) sorted 0) values).
  { apply (Permutation_in _ P), nth_In. rewrite <- (Permutation_length P). lia. }
  pose proof (sorted_between sorted 0 lo S (Permutation_in _ (Permutation_sym P) Hlo)).
  pose proof (sorted_between sorted 0 hi S (Permutation_in _ (Permutation_sym P) Hhi)).
  rewrite (Permutation_length P) in *.
  pose proof (F _ In0). pose proof (F _ InL).
  split; [lra|]. split; [lra|].
  apply Forall_forall. intros v Hv. apply (F v), (Permutation_in _ P), Hv.
Qed.

(** The bins of [computeHistogram] for a non-constant array with least
    value [lo] and greatest [hi] and the bin count [nb]: [nb] bins of
    width [(hi - lo) / nb], bin [i] from [lo + i w] to [lo + (i + 1) w]. *)
Lemma histogram_bins_nonconstant (values : list R) (nb : option Z) (lo hi : R) :
  In lo values -> In hi values -> Forall (fun v => lo <= v <= hi) values -> lo < hi ->
  let k := match nb with Some b => b | None => Statistics.sturges 20 100 (length values) end in
  (1 <= k)%Z ->
  let w := (hi - lo) / IZR k in
  exists bins, Statistics.computeHistogram values nb = inr bins /\
    map x0 bins = map (fun i => lo + INR i * w) (seq 0 (Z.to_nat k)) /\
    map x1 bins = map (fun i => lo + INR (S i) * w) (seq 0 (Z.to_nat k)) /\
    list_sum (map h_count bins) = length values.
Proof.
  intros Hlo Hhi F Hlt k Hk w.
  destruct (sorted_first_last values lo hi Hlo Hhi F) as (E0 & E1 & Fs).
  unfold Statistics.computeHistogram.
  destruct (length values =? 0)%nat eqn:En.
  { apply Nat.eqb_eq, length_zero_iff_nil in En. subst values. contradiction. }
  cbn [n_sub n_eqb n_zero Rnum]. rewrite E0, E1. fold k.
  destruct (Reqb (hi - lo) 0) eqn:Er; [apply Reqb_spec in Er; lra|].
  assert (Hw : 0 < (hi - lo) / IZR k).
  { apply Rdiv_lt_0_compat; [lra|]. apply IZR_lt. lia. }
  cbn [n_div n_of_Z Rnum].
  match goal with
  | |- context [Statistics.count_into ?srt lo ?bw k ?res] =>
      destruct (count_into_ok srt lo bw k res Hw) as (r & Er' & F0 & F1 & F2)
  end.
  - rewrite length_map, length_seq. reflexivity.
  - exact Hk.
  - exact Fs.
  - rewrite Er'. eexists; split; [reflexivity|].
    split; [|split].
    + transitivity (map x0 r); [rewrite map_map; reflexivity|].
      rewrite F0, map_map. apply map_ext. intros i. unfold n_of_nat.
      cbn [x0 n_add n_mul n_of_Z Rnum]. rewrite <- INR_IZR_INZ. reflexivity.
    + transitivity (map x1 r); [rewrite map_map; reflexivity|].
      rewrite F1, map_map. apply map_ext. intros i. unfold n_of_nat.
      cbn [x1 n_add n_mul n_of_Z Rnum]. rewrite <- INR_IZR_INZ. reflexivity.
    + transitivity (list_sum (map h_count r)); [rewrite map_map; reflexivity|].
      rewrite F2, map_map, (Permutation_length (js_sort_perm _ _)).
      cbn [h_count]. clear. induction (seq 0 (Z.to_nat k)); cbn; auto.
Qed.

Lemma ceil_le (x : R) (k : Z) : x <= IZR k -> (m_ceil x <= k)%Z.
Proof.
  intros Hx. cbn [m_ceil Rmath].
  destruct (base_Int_part (- x)) as [_ H2].
  assert (IZR (- k - 1) < IZR (Int_part (- x))) by (rewrite minus_IZR, opp_IZR; lra).
  apply lt_IZR in H. lia.
Qed.

Lemma sturges_two_small :
  (m_ceil ((n_of_Z 1 +# lit 3322 3 *# m_log10 (n_of_nat 2))%js : R) <= 10)%Z.
Proof.
  apply ceil_le. unfold lit, n_of_nat.
  cbn [n_of_Z n_add n_mul n_div m_log10 Rnum Rmath].
  assert (L : ln 2 < ln 10) by (apply ln_increasing; lra).
  assert (L0 : 0 < ln 2) by (rewrite <- ln_1; apply ln_increasing; lra).
  assert (Q : ln 2 / ln 10 <= 1).
  { apply (Rmult_le_reg_r (ln 10)); [lra|]. field_simplify; lra. }
  replace (IZR (Z.of_nat 2)) with 2 by reflexivity.
  replace (IZR (10 ^ 3)) with 1000 by (cbn; lra).
  lra.
Qed.

(** C8 (amended): for a non-constant array with least value [lo] and
    greatest [hi], and no bin count, [computeHistogram] returns
    [nb = clamp(20, 100, ceil(1 + 3.322 log10 n))] equal-width bins: bin
    [i] spans [lo + i w] to [lo + (i + 1) w] with [w = (hi - lo) / nb].
    This is the Sturges rule of [computeMode], with other bounds than its
    10 and 200. *)
Theorem histogram_bins_sturges_20_100 (values : list R) (lo hi : R) :
  In lo values -> In hi values -> Forall (fun v => lo <= v <= hi) values -> lo < hi ->
  let nb := Statistics.sturges 20 100 (length values) in
  let w := (hi - lo) / IZR nb in
  exists bins, Statistics.computeHistogram values None = inr bins /\
    length bins = Z.to_nat nb /\
    map x0 bins = map (fun i => lo + INR i * w) (seq 0 (Z.to_nat nb)) /\
    map x1 bins = map (fun i => lo + INR (S i) * w) (seq 0 (Z.to_nat nb)).
Proof.
  intros Hlo Hhi F Hlt nb w.
  destruct (histogram_bins_nonconstant values None lo hi Hlo Hhi F Hlt)
    as (bins & E & E0 & E1 & _); [apply (Z.le_trans _ 20); [lia|apply sturges_lo]|].
  exists bins. split; [exact E|]. split; [|split; assumption].
  rewrite <- (length_map x0 bins), E0, length_map, length_seq. reflexivity.
Qed.

Lemma histogram_bins_sturges_20_100_witness :
  (In 0 [0; 1] /\ In 1 [0; 1] /\ Forall (fun v => 0 <= v <= 1) [0; 1] /\ 0 < 1) /\
  let nb := Statistics.sturges 20 100 (length [0; 1]) in
  let w := (1 - 0) / IZR nb in
  exists bins, Statistics.computeHistogram [0; 1] None = inr bins /\
    length bins = Z.to_nat nb /\
    map x0 bins = map (fun i => 0 + INR i * w) (seq 0 (Z.to_nat nb)) /\
    map x1 bins = map (fun i => 0 + INR (S i) * w) (seq 0 (Z.to_nat nb)).
Proof.
  assert (H1 : In 0 [0; 1]) by (left; reflexivity).
  assert (H2 : In 1 [0; 1]) by (right; left; reflexivity).
  assert (H3 : Forall (fun v => 0 <= v <= 1) [0; 1]) by (repeat constructor; lra).
  assert (H4 : 0 < 1) by lra.
  split; [repeat split; assumption|].
  exact (histogram_bins_sturges_20_100 [0; 1] 0 1 H1 H2 H3 H4).
Defined.

(** C8 (counterexample): on [[0; 1]], [computeHistogram] makes 20 bins,
    while the clamp(10, 200, ...) rule of [computeMode] gives 10. *)
Lemma histogram_two_bins_counterexample :
  exists bins, Statistics.computeHistogram [0; 1] None = inr bins /\
    length bins = 20%nat /\
    Z.to_nat (Statistics.sturges 10 200 (length [0; 1])) = 10%nat.
Proof.
  pose proof sturges_two_small as Hs.
  destruct (histogram_bins_nonconstant [0; 1] None 0 1) as (bins & E & E0 & _);
    [left; reflexivity|right; left; reflexivity|repeat constructor; lra|lra
    |apply (Z.le_trans _ 20); [lia|apply sturges_lo]|].
  exists bins. split; [exact E|].
  rewrite <- (length_map x0 bins), E0, length_map, length_seq.
  unfold Statistics.sturges. cbn [length]. split; lia.
Qed.

(** ** distributions.ts: zero-width triangular and PERT *)

(** C9: for [min = mode = max = m], [sampleTriangular] returns [m] but
    divides by zero once ([fc = (mode - min) / (max - min)], NaN in JS, is
    not guarded), while [samplePERT] returns [m] through its [range <= 0]
    guard without drawing or dividing. *)
Theorem zero_width_triangular_divides (fuel : nat) (m : R) (st : St R) :
  (exists st', Distributions.sampleTriangular m m m st = Ret m st'
               /\ zeroDivs st' = S (zeroDivs st)) /\
  Distributions.samplePERT fuel m m m st = Ret m st.
Proof.
  assert (E : Reqb 0 0 = true) by (apply Reqb_spec; reflexivity).
  split.
  - unfold Distributions.sampleTriangular, mbind, Distributions.rand,
      Distributions.div_ck, mret.
    cbn [n_sub n_div n_eqb n_zero n_ltb n_add n_mul n_sqrt n_of_Z Rnum].
    rewrite Rminus_diag, E.
    destruct (useSeededRng st); [destruct (xoshiro_step (s_rng st)) as [r w]|];
      destruct (Rltb _ _); rewrite !Rmult_0_r, sqrt_0, ?Rplus_0_r, ?Rminus_0_r;
      eexists; split; reflexivity.
  - unfold Distributions.samplePERT, n_leb.
    cbn [n_sub n_eqb n_zero n_ltb Rnum]. rewrite Rminus_diag, E, orb_true_r.
    reflexivity.
Qed.

Local Close Scope R_scope.

(** ** Seeded runs do not depend on the state they start from *)

Section DetLemmas.
Context {T : Type} `{JSNum T} `{JSMath T}.
Variable fuel : nat.

Lemma Det_ret {A} (a : A) : Det (T := T) (mret a).
Proof. intros s1 s2 S. cbn. auto. Qed.

Lemma Det_throw {A} e : Det (T := T) (@mthrow _ A e).
Proof. intros s1 s2 S. cbn. auto. Qed.

Lemma Det_fuel {A} : Det (T := T) (fun _ => @NoOutcome _ A).
Proof. intros s1 s2 S. exact I. Qed.

Lemma Det_bind {A B} (m : M (St T) A) (k : A -> M (St T) B) :
  Det m -> (forall a, Det (k a)) -> Det (mbind m k).
Proof.
  intros Hm Hk s1 s2 S. unfold mbind. specialize (Hm s1 s2 S).
  destruct (m s1) as [a s1'|e s1'|], (m s2) as [b s2'|f s2'|];
    cbn in Hm |- *; try contradiction; try exact I.
  - destruct Hm as [<- S']. now apply Hk.
  - exact Hm.
Qed.

Lemma Det_finally {A} (m : M (St T) A) (f : M (St T) unit) :
  Det m -> Det f -> Det (mfinally m f).
Proof.
  intros Hm Hf s1 s2 S. unfold mfinally. specialize (Hm s1 s2 S).
  destruct (m s1) as [a s1'|e s1'|], (m s2) as [b s2'|e' s2'|];
    cbn in Hm |- *; try contradiction; try exact I;
    destruct Hm as [<- S']; specialize (Hf _ _ S');
    destruct (f s1') as [u t1|g t1|], (f s2') as [u' t2|g' t2|];
    cbn in Hf |- *; try contradiction; try exact I; destruct Hf; auto.
Qed.

Lemma Det_rand : Det (T := T) Distributions.rand.
Proof.
  intros s1 s2 (E1 & U1 & U2 & E3 & E4). unfold Distributions.rand.
  rewrite U1, U2, <- E1. destruct (xoshiro_step (s_rng s1)) as [r w].
  cbn. split; [reflexivity|]. unfold sim; cbn. auto.
Qed.

Lemma Det_div_ck a b : Det (T := T) (Distributions.div_ck a b).
Proof.
  intros s1 s2 S. unfold Distributions.div_ck. cbn. split; [reflexivity|].
  destruct (b =# n_zero)%js; [|exact S].
  destruct S as (E1 & U1 & U2 & E3 & E4). unfold sim; cbn. auto.
Qed.

Lemma Det_gets_hasSpare : Det (T := T) (mgets hasSpare).
Proof. intros s1 s2 S. cbn. split; [apply S|exact S]. Qed.

Lemma Det_gets_spare : Det (T := T) (mgets spare).
Proof. intros s1 s2 S. cbn. split; [apply S|exact S]. Qed.

Lemma Det_set_spare b v : Det (T := T) (mmodify (set_spare b v)).
Proof.
  intros s1 s2 (E1 & U1 & U2 & E3 & E4). cbn. split; [reflexivity|].
  unfold sim; cbn. auto.
Qed.

End DetLemmas.

Create HintDb det.
#[export] Hint Resolve Det_ret Det_throw Det_fuel Det_rand Det_div_ck
  Det_gets_hasSpare Det_gets_spare Det_set_spare : det.

Ltac det_step :=
  match goal with
  | x : prod _ _ |- _ => destruct x
  | |- Det (mbind _ _) => apply Det_bind; [|intros ?]
  | |- Det (mfinally _ _) => apply Det_finally
  | |- Det (match ?o with inl _ => _ | inr _ => _ end) => destruct o
  | |- Det (if ?b then _ else _) => destruct b
  | |- Det (match ?o with Some _ => _ | None => _ end) => destruct o
  | |- Det (match ?l with [] => _ | _ :: _ => _ end) => destruct l
  | |- Det (match ?l with PNum _ => _ | PArr _ => _ end) => destruct l
  | |- _ => solve [eauto with det]
  end.
Ltac det := cbv beta zeta; repeat det_step.

Section DetDist.
Context {T : Type} `{JSNum T} `{JSMath T}.
Variable fuel : nat.

Lemma Det_polar k : Det (T := T) (Distributions.polar k).
Proof. induction k as [|k IH]; cbn [Distributions.polar]; det. Qed.
#[local] Hint Resolve Det_polar : det.

Lemma Det_sampleStdNormal : Det (T := T) (Distributions.sampleStdNormal fuel).
Proof. unfold Distributions.sampleStdNormal. det. Qed.
#[local] Hint Resolve Det_sampleStdNormal : det.

Lemma Det_gamma_draw k c : Det (T := T) (Distributions.gamma_draw fuel k c).
Proof. induction k as [|k IH]; cbn [Distributions.gamma_draw]; det. Qed.
#[local] Hint Resolve Det_gamma_draw : det.

Lemma Det_gamma_loop k d c scale : Det (T := T) (Distributions.gamma_loop fuel k d c scale).
Proof. induction k as [|k IH]; cbn [Distributions.gamma_loop]; det. Qed.
#[local] Hint Resolve Det_gamma_loop : det.

Lemma Det_sampleGamma k shape scale : Det (T := T) (Distributions.sampleGamma fuel k shape scale).
Proof.
  revert shape; induction k as [|k IH]; intros shape; cbn [Distributions.sampleGamma]; det.
Qed.
#[local] Hint Resolve Det_sampleGamma : det.

Lemma Det_discrete_scan u cum i vs probs values :
  Det (T := T) (Distributions.discrete_scan u cum i vs probs values).
Proof.
  revert cum i; induction vs as [|v vs IH]; intros cum i; cbn [Distributions.discrete_scan]; det.
Qed.
#[local] Hint Resolve Det_discrete_scan : det.

Lemma Det_sampleDistribution type params :
  Det (T := T) (Distributions.sampleDistribution fuel type params).
Proof.
  unfold Distributions.sampleDistribution, Distributions.sampleNormal,
    Distributions.sampleUniform, Distributions.sampleTriangular,
    Distributions.samplePERT, Distributions.sampleBeta,
    Distributions.sampleLognormal, Distributions.sampleDiscrete.
  det.
Qed.

End DetDist.

#[export] Hint Resolve Det_sampleDistribution : det.

Section DetSim.
Context {T : Type} `{JSNum T} `{JSMath T}.
Variable fuel : nat.
Variable parseFloat : string -> T.

Lemma Det_sampleAll inputs : Det (T := T) (Simulator.sampleAll fuel inputs).
Proof. induction inputs as [|inp inputs IH]; cbn [Simulator.sampleAll]; det. Qed.
#[local] Hint Resolve Det_sampleAll : det.

Lemma Det_iterate config inputs nOut xl cancelAt todo iter inputSamples outputValues progress :
  Det (T := T) (Simulator.iterate fuel parseFloat config inputs nOut xl cancelAt
                  todo iter inputSamples outputValues progress).
Proof.
  revert iter inputSamples outputValues progress.
  induction todo as [|todo IH]; intros iter inputSamples outputValues progress;
    cbn [Simulator.iterate]; det.
Qed.
#[local] Hint Resolve Det_iterate : det.

Lemma Det_restore xl : Det (T := T) (Simulator.restore xl).
Proof. unfold Simulator.restore. det. Qed.
#[local] Hint Resolve Det_restore : det.

Lemma seeded_prefix {A} (sd : Z) (k : unit -> M (St T) A) st :
  mbind (mbind (Distributions.seedRng sd) (fun _ => Distributions.setUseSeededRng true))
        (fun _ => mbind Distributions.resetSamplerState k) st
  = k tt (set_spare false n_zero (set_useSeeded true (set_rng (seedRng_words sd) st))).
Proof. reflexivity. Qed.

Lemma seeded_prefix_sim sd st1 st2 :
  sim (set_spare false n_zero (set_useSeeded true (set_rng (seedRng_words sd) st1)))
      (set_spare false n_zero (set_useSeeded true (set_rng (seedRng_words sd) st2))).
Proof. unfold sim; cbn. auto. Qed.

(** C3: for a seed [> 0], two runs of [runSimulation] with the same
    configuration, inputs, outputs, workbook [xl] and cancellation yield the
    same outcome (the same results, sample matrix and statistics included,
    or the same error), whatever the states they start from. *)
Theorem seeded_runs_agree config inputs outputs xl cancelAt (st1 st2 : St T) :
  (0 < seed config)%Z ->
  outcome_value (Simulator.runSimulation fuel parseFloat config inputs outputs xl cancelAt st1)
  = outcome_value (Simulator.runSimulation fuel parseFloat config inputs outputs xl cancelAt st2).
Proof.
  intros Hs. apply Z.ltb_lt in Hs.
  destruct inputs as [|inp inputs]; [reflexivity|].
  destruct outputs as [|out outputs]; [reflexivity|].
  unfold Simulator.runSimulation. rewrite Hs. rewrite !seeded_prefix.
  match goal with
  | |- outcome_value (?m ?a) = outcome_value (?m ?b) =>
      assert (D : Det m) by det;
      pose proof (D a b (seeded_prefix_sim _ _ _)) as R;
      destruct (m a) as [x a'|e a'|], (m b) as [y b'|f b'|];
      cbn in R |- *; try contradiction; try reflexivity;
      destruct R as [<- _]; reflexivity
  end.
Qed.
End DetSim.

Lemma seeded_runs_agree_witness :
  (0 < seed (ex_config 5))%Z /\
  outcome_value (Simulator.runSimulation 100 (fun _ => 0%R) (ex_config 5) [ex_input]
                   [ex_output] ex_excel None ex_state)
  = outcome_value (Simulator.runSimulation 100 (fun _ => 0%R) (ex_config 5) [ex_input]
                     [ex_output] ex_excel None (set_useSeeded true ex_state)).
Proof.
  assert (Hs : (0 < seed (ex_config 5))%Z) by reflexivity.
  split; [exact Hs|].
  exact (seeded_runs_agree 100 (fun _ => 0%R) (ex_config 5) [ex_input] [ex_output]
           ex_excel None ex_state (set_useSeeded true ex_state) Hs).
Defined.

(** ** The shape of a run *)

Section Runs.
Context {T : Type} `{JSNum T} `{JSMath T}.
Variable fuel : nat.
Variable parseFloat : string -> T.

(** A loop that returns has run [iterations_run] iterations, each adding
    a sample row and a value to every output series, and has only
    appended progress updates. *)
Lemma iterate_ret config inputs nOut xl cancelAt :
  forall todo iter IS OV P (st : St T) IS' OV' P' stop st',
  length OV = nOut -> Forall (fun l => length l = length IS) OV ->
  Simulator.iterate fuel parseFloat config inputs nOut xl cancelAt todo iter IS OV P st
    = Ret (IS', OV', P', stop) st' ->
  stop = (iter + iterations_run cancelAt todo iter)%nat /\
  length IS' = (length IS + iterations_run cancelAt todo iter)%nat /\
  length OV' = nOut /\ Forall (fun l => length l = length IS') OV' /\
  exists P'', P' = P ++ P''.
Proof.
  intros todo. induction todo as [|todo IH];
    intros iter IS OV P st IS' OV' P' stop st' HL HF E.
  - cbn in E. injection E as <- <- <- <- _. unfold iterations_run.
    replace (match cancelAt with None => 0 | Some c => Nat.min 0 (c - iter) end)%nat
      with 0%nat by (destruct cancelAt; lia).
    rewrite !Nat.add_0_r. repeat split; auto. exists []. now rewrite app_nil_r.
  - cbn [Simulator.iterate] in E.
    destruct (match cancelAt with Some c => (c <=? iter)%nat | None => false end) eqn:Ec.
    + cbn in E. injection E as <- <- <- <- _.
      assert (Z0 : iterations_run cancelAt (S todo) iter = 0%nat).
      { unfold iterations_run. destruct cancelAt as [c|]; [|discriminate].
        apply Nat.leb_le in Ec. lia. }
      rewrite Z0, !Nat.add_0_r. repeat split; auto. exists []. now rewrite app_nil_r.
    + unfold mbind at 1 in E.
      destruct (Simulator.sampleAll fuel inputs st) as [v st1|e st1|]; try discriminate.
      cbv beta zeta in E.
      destruct (xl_step xl iter v) as [e|read]; [discriminate|].
      set (OV1 := map (fun p => fst p ++ [Simulator.coerce parseFloat (read (snd p))])
                      (combine OV (seq 0 nOut))) in E.
      assert (HL1 : length OV1 = nOut).
      { unfold OV1. rewrite length_map, length_combine, length_seq. lia. }
      assert (HF1 : Forall (fun l => length l = length (IS ++ [v])) OV1).
      { unfold OV1. apply Forall_map, Forall_forall. intros [l i] Hin. cbn [fst].
        apply in_combine_l in Hin. rewrite Forall_forall in HF.
        rewrite !length_app, (HF _ Hin). reflexivity. }
      match type of E with
      | Simulator.iterate _ _ _ _ _ _ _ _ _ _ _ ?P1 _ = _ =>
          destruct (IH (S iter) (IS ++ [v]) OV1 P1 st1 IS' OV' P' stop st' HL1 HF1 E)
            as (Es & L1 & L2 & L3 & P'' & EP)
      end.
      assert (St : iterations_run cancelAt (S todo) iter
                   = S (iterations_run cancelAt todo (S iter))).
      { unfold iterations_run. destruct cancelAt as [c|]; [|reflexivity].
        apply Nat.leb_gt in Ec. lia. }
      rewrite St. split; [lia|].
      split; [rewrite L1, length_app; cbn; lia|]. split; [exact L2|]. split; [exact L3|].
      rewrite EP.
      lazymatch goal with |- exists _, (if ?b then _ else _) ++ _ = _ => destruct b end;
        eexists; [rewrite <- app_assoc|]; reflexivity.
Qed.

(** A loop that is not cancelled and returns has called [onProgress] at
    the iterations [progress_due] selects. *)
Lemma iterate_progress config inputs nOut xl :
  forall todo iter IS OV P (st : St T) IS' OV' P' stop st',
  Simulator.iterate fuel parseFloat config inputs nOut xl None todo iter IS OV P st
    = Ret (IS', OV', P', stop) st' ->
  P' = P ++ map (running_at config) (filter (progress_due config) (seq iter todo)).
Proof.
  intros todo. induction todo as [|todo IH];
    intros iter IS OV P st IS' OV' P' stop st' E.
  - cbn in E. injection E as _ _ <- _ _. cbn. now rewrite app_nil_r.
  - cbn [Simulator.iterate] in E. unfold mbind at 1 in E.
    destruct (Simulator.sampleAll fuel inputs st) as [v st1|e st1|]; try discriminate.
    cbv beta zeta in E.
    destruct (xl_step xl iter v) as [e|read]; [discriminate|].
    rewrite (IH _ _ _ _ _ _ _ _ _ _ E). cbn [seq filter].
    unfold progress_due at 2.
    destruct (_ || _)%Z; cbn [map]; [rewrite <- app_assoc|]; reflexivity.
Qed.

(** A run that returns has returned what its loop returned. *)
Lemma run_ret_iterate config inputs outs xl cancelAt (st : St T) res progress st' :
  Simulator.runSimulation fuel parseFloat config inputs outs xl cancelAt st
    = Ret (res, progress) st' ->
  exists s0 OV P stop s1,
    Simulator.iterate fuel parseFloat config inputs (length outs) xl cancelAt
      (Z.to_nat (iterations config)) 0 [] (repeat [] (length outs)) [] s0
      = Ret (inputSamples res, OV, P, stop) s1 /\
    map values (outputs res) = map snd (combine outs OV) /\
    let cancelled := match cancelAt with Some c => (c <=? stop)%nat | None => false end in
    progress = P ++
      [{| status := if cancelled then Cancelled else Completed;
          currentIteration := if cancelled then 0%Z else iterations config;
          totalIterations := iterations config |}].
Proof.
  intros E.
  destruct inputs as [|inp inputs]; [discriminate|].
  destruct outs as [|out outs]; [discriminate|].
  unfold Simulator.runSimulation in E.
  destruct (0 <? seed config)%Z;
  cbn [mbind Distributions.seedRng Distributions.setUseSeededRng
       Distributions.resetSamplerState mmodify] in E;
  (destruct (xl_open xl); [discriminate|]);
  unfold mbind, mfinally, Simulator.restore in E;
  match type of E with
  | context [Simulator.iterate fuel parseFloat config ?ins ?n xl cancelAt ?td 0 [] ?ov [] ?s] =>
      destruct (Simulator.iterate fuel parseFloat config ins n xl cancelAt td 0 [] ov [] s)
        as [[[[IS OV] P] stop] s1|e s1|] eqn:Ei;
      destruct (xl_restore xl); try discriminate;
      cbv beta iota zeta delta [mret] in E; injection E as <- <- _;
      exists s, OV, P, stop, s1; split; [exact Ei|];
      (split; [cbn [outputs]; rewrite map_map; reflexivity|reflexivity])
  end.
Qed.

(** The shape of a run that returns: [iterations_run] sample rows, as
    many values per output, and a last update "cancelled" or
    "completed". *)
Lemma run_ret config inputs outs xl cancelAt (st : St T) res progress st' :
  Simulator.runSimulation fuel parseFloat config inputs outs xl cancelAt st
    = Ret (res, progress) st' ->
  let d := iterations_run cancelAt (Z.to_nat (iterations config)) 0 in
  let cancelled := match cancelAt with Some c => (c <=? d)%nat | None => false end in
  length (inputSamples res) = d /\
  length (outputs res) = length outs /\
  Forall (fun o => length (values o) = d) (outputs res) /\
  exists pre, progress = pre ++
    [{| status := if cancelled then Cancelled else Completed;
        currentIteration := if cancelled then 0%Z else iterations config;
        totalIterations := iterations config |}].
Proof.
  intros E d cancelled.
  destruct (run_ret_iterate config inputs outs xl cancelAt st res progress st' E)
    as (s0 & OV & P & stop & s1 & Ei & EV & EP).
  assert (HL : length (repeat (@nil T) (length outs)) = length outs) by apply repeat_length.
  assert (HF : Forall (fun l : list T => length l = length (@nil T)) (repeat [] (length outs))).
  { apply Forall_forall. intros l Hl. apply repeat_spec in Hl. now subst. }
  destruct (iterate_ret config inputs (length outs) xl cancelAt _ 0 [] _ [] s0 _ _ _ _ _ HL HF Ei)
    as (Es & L1 & L2 & L3 & _).
  cbn [Nat.add length] in Es, L1. fold d in Es, L1.
  split; [exact L1|].
  split.
  { rewrite <- (length_map values), EV, length_map, length_combine, L2. apply Nat.min_id. }
  split.
  { apply (Forall_map values (fun l => length l = d)). rewrite EV.
    apply Forall_forall. intros l Hl. apply in_map_iff in Hl as ([o l'] & <- & Hin).
    apply in_combine_r in Hin. rewrite Forall_forall in L3. cbn [snd].
    rewrite (L3 _ Hin). exact L1. }
  exists P. rewrite EP. unfold cancelled. rewrite Es. reflexivity.
Qed.

(** With samplers that always return and a workbook whose syncs all
    succeed, the loop returns. *)
Lemma iterate_returns config inputs nOut xl cancelAt :
  (forall st, exists v st', Simulator.sampleAll fuel inputs st = Ret v st') ->
  (forall i row, exists read, xl_step xl i row = inr read) ->
  forall todo iter IS OV P (st : St T), exists r st',
    Simulator.iterate fuel parseFloat config inputs nOut xl cancelAt todo iter IS OV P st
    = Ret r st'.
Proof.
  intros Tot XT todo. induction todo as [|todo IH]; intros iter IS OV P st.
  - cbn. eauto.
  - cbn [Simulator.iterate].
    destruct (match cancelAt with Some c => (c <=? iter)%nat | None => false end);
      [cbn; eauto|].
    destruct (Tot st) as (v & st1 & Hs). unfold mbind at 1. rewrite Hs.
    cbv beta zeta. destruct (XT iter v) as (read & Hx). rewrite Hx. apply IH.
Qed.

Lemma run_returns config inputs outs xl cancelAt (st : St T) :
  (forall st, exists v st', Simulator.sampleAll fuel inputs st = Ret v st') ->
  (forall i row, exists read, xl_step xl i row = inr read) ->
  xl_open xl = None -> xl_restore xl = None -> inputs <> [] -> outs <> [] ->
  exists res progress st',
    Simulator.runSimulation fuel parseFloat config inputs outs xl cancelAt st
    = Ret (res, progress) st'.
Proof.
  intros Tot XT Hop Hre Hi Ho.
  destruct inputs as [|inp inputs]; [congruence|].
  destruct outs as [|out outs]; [congruence|].
  unfold Simulator.runSimulation. rewrite Hop.
  destruct (0 <? seed config)%Z;
  cbn [mbind Distributions.seedRng Distributions.setUseSeededRng
       Distributions.resetSamplerState mmodify];
  unfold mbind, mfinally, Simulator.restore; rewrite Hre;
  match goal with
  | |- context [Simulator.iterate fuel parseFloat config ?ins ?n xl cancelAt ?td 0 [] ?ov [] ?s] =>
      destruct (iterate_returns config ins n xl cancelAt Tot XT td 0 [] ov [] s)
        as ([[[IS OV] P] stop] & s1 & Ei); rewrite Ei
  end; cbn; eauto.
Qed.

(** The loop cancelled at the check before iteration [k] and the loop of
    [k] iterations that is not cancelled draw the same samples, read the
    same values and end in the same state, or fail alike. *)
Lemma iterate_cancel_prefix config config' inputs nOut xl k :
  forall n m iter IS OV P P' (st : St T),
  (iter + n = k)%nat -> (n <= m)%nat ->
  match Simulator.iterate fuel parseFloat config inputs nOut xl (Some k) m iter IS OV P st,
        Simulator.iterate fuel parseFloat config' inputs nOut xl None n iter IS OV P' st with
  | Ret (IS1, OV1, _, stop) s1, Ret (IS2, OV2, _, _) s2 =>
      IS1 = IS2 /\ OV1 = OV2 /\ s1 = s2 /\ stop = k
  | Throw e1 s1, Throw e2 s2 => e1 = e2 /\ s1 = s2
  | NoOutcome, NoOutcome => True
  | _, _ => False
  end.
Proof.
  induction n as [|n IH]; intros m iter IS OV P P' st Hk Hm.
  - destruct m as [|m]; cbn [Simulator.iterate].
    + cbn. repeat split; lia.
    + replace (k <=? iter)%nat with true by (symmetry; apply Nat.leb_le; lia).
      cbn. repeat split; lia.
  - destruct m as [|m]; [lia|]. cbn [Simulator.iterate].
    replace (k <=? iter)%nat with false by (symmetry; apply Nat.leb_gt; lia).
    unfold mbind.
    destruct (Simulator.sampleAll fuel inputs st) as [v s1|e s1|]; [|cbn; auto|exact I].
    cbv beta iota zeta.
    destruct (xl_step xl iter v) as [e|read]; [cbn; auto|].
    apply IH; lia.
Qed.

End Runs.

(** ** Iteration count and cancellation of a run *)

Lemma ex_input_total fuel (st : St R) :
  exists v st', Simulator.sampleAll fuel [ex_input] st = Ret v st'.
Proof.
  unfold Simulator.sampleAll, Distributions.sampleDistribution, Distributions.sampleUniform,
    Distributions.rand, mbind, mret.
  cbn [ex_input in_type in_params Distributions.param_num find fst
       String.eqb Ascii.eqb Bool.eqb andb].
  destruct (useSeededRng st); [destruct (xoshiro_step (s_rng st))|]; eauto.
Qed.

Lemma ex_excel_syncs i row : exists read, xl_step ex_excel i row = inr read.
Proof. eexists. reflexivity. Qed.

(** The example run returns, cancelled or not. *)
Lemma ex_run_returns iters cancelAt :
  exists res progress st',
    Simulator.runSimulation 100 (fun _ => 0%R) (ex_config iters) [ex_input] [ex_output]
      ex_excel cancelAt ex_state = Ret (res, progress) st'.
Proof.
  apply run_returns; [exact (ex_input_total 100)|exact ex_excel_syncs|reflexivity
                     |reflexivity|discriminate|discriminate].
Qed.

Section Claims.
Context {T : Type} `{JSNum T} `{JSMath T}.
Variable fuel : nat.
Variable parseFloat : string -> T.

(** C1 (amended): [runSimulation] does not check [config.iterations].  A
    run that is not cancelled and returns its results (no sampler, sync
    or restore has failed) has run [max(iterations, 0)] iterations: the
    sample matrix and every output's values have that length, and the
    last progress update is "completed". *)
Theorem runSimulation_no_iteration_check config inputs outs xl (st : St T) res progress st' :
  Simulator.runSimulation fuel parseFloat config inputs outs xl None st
    = Ret (res, progress) st' ->
  length (inputSamples res) = Z.to_nat (iterations config) /\
  length (outputs res) = length outs /\
  Forall (fun o => length (values o) = Z.to_nat (iterations config)) (outputs res) /\
  exists pre, progress = pre ++
    [{| status := Completed; currentIteration := iterations config;
        totalIterations := iterations config |}].
Proof.
  intros E. exact (run_ret fuel parseFloat config inputs outs xl None st res progress st' E).
Qed.

(** C2: when cancellation is first seen at the check before iteration [k]
    ([0 < k < iterations]), [runSimulation] does what the run of [k]
    iterations that is not cancelled does: the same samples, outputs,
    statistics, sensitivities and final state, or the same error; it
    fails only if that run fails.  When it returns, it has [k] sample
    rows and [k] values for every output, and its last progress update
    has status "cancelled". *)
Theorem cancel_after_k config inputs outs xl k (st : St T) :
  (0 < k < Z.to_nat (iterations config))%nat ->
  match Simulator.runSimulation fuel parseFloat config inputs outs xl (Some k) st,
        Simulator.runSimulation fuel parseFloat (with_iterations config (Z.of_nat k))
          inputs outs xl None st with
  | Ret (r1, _) s1, Ret (r2, _) s2 =>
      inputSamples r1 = inputSamples r2 /\ outputs r1 = outputs r2 /\
      sensitivity r1 = sensitivity r2 /\ s1 = s2
  | Throw e1 s1, Throw e2 s2 => e1 = e2 /\ s1 = s2
  | NoOutcome, NoOutcome => True
  | _, _ => False
  end /\
  (forall res progress st',
     Simulator.runSimulation fuel parseFloat config inputs outs xl (Some k) st
       = Ret (res, progress) st' ->
     length (inputSamples res) = k /\
     length (outputs res) = length outs /\
     Forall (fun o => length (values o) = k) (outputs res) /\
     exists pre, progress = pre ++
       [{| status := Cancelled; currentIteration := 0%Z;
           totalIterations := iterations config |}]).
Proof.
  intros Hk. split.
  - destruct inputs as [|inp inputs]; [cbn; auto|].
    destruct outs as [|out outs]; [cbn; auto|].
    unfold Simulator.runSimulation.
    change (seed (with_iterations config (Z.of_nat k))) with (seed config).
    change (iterations (with_iterations config (Z.of_nat k))) with (Z.of_nat k).
    change (confidenceLevel (with_iterations config (Z.of_nat k)))
      with (confidenceLevel config).
    rewrite Nat2Z.id.
    destruct (0 <? seed config)%Z;
    cbv beta iota delta [mbind Distributions.seedRng Distributions.setUseSeededRng
         Distributions.resetSamplerState mmodify mfinally];
    (destruct (xl_open xl); [cbn; auto|]);
    match goal with
    | |- context [Simulator.iterate fuel parseFloat config ?ins ?n xl (Some k) ?m 0 [] ?ov [] ?s] =>
        pose proof (iterate_cancel_prefix fuel parseFloat config
                      (with_iterations config (Z.of_nat k)) ins n xl k
                      k m 0 [] ov [] [] s eq_refl ltac:(lia)) as Ag;
        destruct (Simulator.iterate fuel parseFloat config ins n xl (Some k) m 0 [] ov [] s)
          as [[[[IS1 OV1] P1] stop1] s1|e1 s1|];
        destruct (Simulator.iterate fuel parseFloat (with_iterations config (Z.of_nat k))
                    ins n xl None k 0 [] ov [] s)
          as [[[[IS2 OV2] P2] stop2] s2|e2 s2|];
        cbn in Ag; try contradiction
    end;
    try (destruct Ag as (<- & <- & <- & _));
    try (destruct Ag as (<- & <-));
    try exact I;
    lazymatch goal with
    | |- context [Simulator.restore xl ?t] =>
        destruct (Simulator.restore xl t) as [u t'|g t'|];
        cbv beta iota zeta delta [mret]; auto
    end.
  - intros res progress st' E.
    destruct (run_ret fuel parseFloat config inputs outs xl (Some k) st res progress st' E)
      as (L1 & L2 & L3 & EP).
    assert (D : iterations_run (Some k) (Z.to_nat (iterations config)) 0 = k)
      by (cbn; lia).
    cbv zeta in L1, L3, EP. rewrite D in L1, L3, EP. rewrite Nat.leb_refl in EP.
    auto.
Qed.

End Claims.

(** C1 (counterexample): with 50 iterations, outside [100, 50000], the run
    starts, draws samples and returns a 50-row sample matrix. *)
Lemma runSimulation_iterations_50 :
  exists res progress st',
    Simulator.runSimulation 100 (fun _ => 0%R) (ex_config 50) [ex_input] [ex_output]
      ex_excel None ex_state = Ret (res, progress) st' /\
    length (inputSamples res) = 50%nat.
Proof.
  destruct (ex_run_returns 50 None) as (res & progress & st' & E).
  exists res, progress, st'. split; [exact E|].
  destruct (run_ret 100 (fun _ => 0%R) _ _ _ _ _ _ _ _ _ E) as (L1 & _). rewrite L1. reflexivity.
Qed.

Lemma runSimulation_no_iteration_check_witness :
  exists res progress st',
    Simulator.runSimulation 100 (fun _ => 0%R) (ex_config 50) [ex_input] [ex_output]
      ex_excel None ex_state = Ret (res, progress) st' /\
    length (inputSamples res) = Z.to_nat (iterations (ex_config 50)) /\
    length (outputs res) = length [ex_output] /\
    Forall (fun o => length (values o) = Z.to_nat (iterations (ex_config 50)))
           (outputs res) /\
    exists pre, progress = pre ++
      [{| status := Completed; currentIteration := iterations (ex_config 50);
          totalIterations := iterations (ex_config 50) |}].
Proof.
  destruct (ex_run_returns 50 None) as (res & progress & st' & E).
  exists res, progress, st'. split; [exact E|].
  exact (runSimulation_no_iteration_check 100 (fun _ => 0%R) (ex_config 50) [ex_input]
           [ex_output] ex_excel ex_state res progress st' E).
Defined.

Lemma cancel_after_k_witness :
  (0 < 3 < Z.to_nat (iterations (ex_config 10)))%nat /\
  (exists res progress st',
     Simulator.runSimulation 100 (fun _ => 0%R) (ex_config 10) [ex_input] [ex_output]
       ex_excel (Some 3%nat) ex_state = Ret (res, progress) st') /\
  match Simulator.runSimulation 100 (fun _ => 0%R) (ex_config 10) [ex_input] [ex_output]
          ex_excel (Some 3%nat) ex_state,
        Simulator.runSimulation 100 (fun _ => 0%R) (with_iterations (ex_config 10) (Z.of_nat 3))
          [ex_input] [ex_output] ex_excel None ex_state with
  | Ret (r1, _) s1, Ret (r2, _) s2 =>
      inputSamples r1 = inputSamples r2 /\ outputs r1 = outputs r2 /\
      sensitivity r1 = sensitivity r2 /\ s1 = s2
  | Throw e1 s1, Throw e2 s2 => e1 = e2 /\ s1 = s2
  | NoOutcome, NoOutcome => True
  | _, _ => False
  end /\
  (forall res progress st',
     Simulator.runSimulation 100 (fun _ => 0%R) (ex_config 10) [ex_input] [ex_output]
       ex_excel (Some 3%nat) ex_state = Ret (res, progress) st' ->
     length (inputSamples res) = 3%nat /\
     length (outputs res) = length [ex_output] /\
     Forall (fun o => length (values o) = 3%nat) (outputs res) /\
     exists pre, progress = pre ++
       [{| status := Cancelled; currentIteration := 0%Z;
           totalIterations := iterations (ex_config 10) |}]).
Proof.
  assert (Hk : (0 < 3 < Z.to_nat (iterations (ex_config 10)))%nat) by (cbn; lia).
  split; [exact Hk|]. split; [exact (ex_run_returns 10 (Some 3%nat))|].
  exact (cancel_after_k 100 (fun _ => 0%R) (ex_config 10) [ex_input] [ex_output]
           ex_excel 3 ex_state Hk).
Defined.


(* ------------------------------------------------------------------ *)
(** * Further properties of the code *)

(** ** storage.ts: the [Map]s of inputs and outputs *)

Section MapFacts.
Context {V : Type} (key : V -> string).

Lemma map_get_set k k' v (m : list (string * V)) :
  map_get k (map_set k' v m) = if String.eqb k k' then Some v else map_get k m.
Proof.
  induction m as [|[k1 v1] m IH]; cbn.
  - destruct (String.eqb k k'); reflexivity.
  - destruct (String.eqb_spec k' k1) as [<-|Hne]; cbn.
    + destruct (String.eqb k k'); reflexivity.
    + rewrite IH. destruct (String.eqb_spec k k') as [->|]; [|reflexivity].
      apply String.eqb_neq in Hne. rewrite Hne. reflexivity.
Qed.

Lemma map_get_find k (m : list (string * V)) :
  Forall (fun p => fst p = key (snd p)) m ->
  map_get k m = find (fun v => String.eqb (key v) k) (map snd m).
Proof.
  induction m as [|[k1 v1] m IH]; cbn; intros F; [reflexivity|].
  inversion F as [|? ? Hk F']; subst. cbn in Hk. subst k1.
  rewrite String.eqb_sym. destruct (String.eqb _ _); [reflexivity|auto].
Qed.

Lemma map_set_fst k v (m : list (string * V)) :
  map fst (map_set k v m) = if existsb (String.eqb k) (map fst m) then map fst m
                            else map fst m ++ [k].
Proof.
  induction m as [|[k1 v1] m IH]; cbn; [reflexivity|].
  destruct (String.eqb_spec k k1) as [<-|]; cbn; [reflexivity|].
  rewrite IH. destruct (existsb _ _); reflexivity.
Qed.

Lemma keyed_set v (m : list (string * V)) : keyed key m -> keyed key (map_set (key v) v m).
Proof.
  intros [F N]. split.
  - clear N. induction m as [|[k1 v1] m IH]; cbn; [constructor; auto|].
    inversion F; subst. destruct (String.eqb _ _); constructor; auto.
  - rewrite map_set_fst. destruct (existsb _ _) eqn:E; [exact N|].
    apply NoDup_app; auto using NoDup_cons, NoDup_nil.
    intros a Ha [<-|[]]. apply Bool.not_true_iff_false in E. apply E.
    apply existsb_exists. exists (key v). split; [exact Ha|apply String.eqb_refl].
Qed.

Lemma map_delete_sub k (m : list (string * V)) :
  incl (map_delete k m) m /\ (forall P, Forall P m -> Forall P (map_delete k m)).
Proof.
  induction m as [|[k1 v1] m IH]; cbn; [split; [apply incl_refl|auto]|].
  destruct IH as [I Fa]. destruct (String.eqb k k1).
  - split; [apply incl_tl, incl_refl|]. intros P F; inversion F; auto.
  - split; [apply incl_cons; [left; reflexivity|apply incl_tl, I]|].
    intros P F; inversion F; constructor; auto.
Qed.

Lemma keyed_delete k (m : list (string * V)) : keyed key m -> keyed key (map_delete k m).
Proof.
  intros [F N]. split; [apply map_delete_sub, F|].
  clear F. induction m as [|[k1 v1] m IH]; cbn in *; [constructor|].
  inversion N as [|? ? Hn N']; subst.
  destruct (String.eqb k k1); [exact N'|].
  cbn. constructor; [|auto]. intros Hin. apply Hn.
  apply in_map_iff in Hin as ([k2 v2] & E & Hin). cbn in E; subst.
  apply (in_map fst m (k1, v2)), (proj1 (map_delete_sub k m)), Hin.
Qed.

Lemma map_delete_filter k (m : list (string * V)) :
  keyed key m ->
  map snd (map_delete k m) = filter (fun v => negb (String.eqb (key v) k)) (map snd m).
Proof.
  intros [F N]. induction m as [|[k1 v1] m IH]; cbn in *; [reflexivity|].
  inversion F as [|? ? Hk F']; subst. inversion N as [|? ? Hn N']; subst.
  cbn in Hk. subst k1. rewrite (String.eqb_sym (key v1) k).
  destruct (String.eqb_spec k (key v1)) as [->|Hne]; cbn.
  - clear IH N N'. induction m as [|[k2 v2] m IH2]; cbn in *; [reflexivity|].
    inversion F' as [|? ? Hk2 F'']; subst. cbn in Hk2. subst k2.
    destruct (String.eqb_spec (key v2) (key v1)) as [E|]; [exfalso; auto|].
    cbn. f_equal. apply IH2; auto.
  - f_equal. auto.
Qed.

Lemma keyed_nil : keyed key [].
Proof. split; constructor. Qed.

Lemma keyed_fst m : keyed key m -> map fst m = map key (map snd m).
Proof.
  intros [F _]. induction m as [|p m IH]; cbn; [reflexivity|].
  inversion F; subst. f_equal; auto.
Qed.
End MapFacts.

Lemma map_set_none {V} k (v : V) m : map_get k m = None -> map_set k v m = m ++ [(k, v)].
Proof.
  induction m as [|[k1 v1] m IH]; cbn; [reflexivity|].
  destruct (String.eqb k k1); [discriminate|]. intros H; rewrite IH; auto.
Qed.

Lemma map_set_some {V} k (v old : V) m :
  map_get k m = Some old ->
  exists pre post, m = pre ++ (k, old) :: post /\ map_set k v m = pre ++ (k, v) :: post.
Proof.
  induction m as [|[k1 v1] m IH]; cbn; [discriminate|].
  destruct (String.eqb_spec k k1) as [<-|].
  - intros [= <-]. exists [], m. split; reflexivity.
  - intros H. destruct (IH H) as (pre & post & E1 & E2).
    exists ((k1, v1) :: pre), post. rewrite E2, E1. split; reflexivity.
Qed.

Section StorageFacts.
Context {T : Type}.

Lemma storage_call_ok c (reg : Storage.Registry T) :
  registry_ok reg -> registry_ok (storage_call c reg).
Proof.
  intros [I O]; destruct c; cbn; split; auto using keyed_nil.
  - apply keyed_set, I.
  - apply keyed_delete, I.
  - apply keyed_set, O.
Qed.

Lemma storage_after_ok calls : registry_ok (@storage_after T calls).
Proof.
  unfold storage_after.
  assert (H : registry_ok (@Storage.initial T)) by (split; apply keyed_nil).
  revert H. generalize (@Storage.initial T).
  induction calls as [|c calls IH]; intros reg H; cbn; [exact H|].
  apply IH, storage_call_ok, H.
Qed.

(** [registerInput] then [getInput]: the input registered is found under
    its own id, and every other id still finds what it found before. *)
Theorem registerInput_getInput (i : DistributionInput T) reg id :
  Storage.getInput id (Storage.registerInput i reg)
  = if String.eqb id (in_id i) then Some i else Storage.getInput id reg.
Proof. unfold Storage.getInput, Storage.registerInput; cbn. apply map_get_set. Qed.

(** [registerInput] keeps the [Map]'s insertion order: a new id is listed
    last by [getInputs], and re-registering an id replaces its input in
    place. *)
Theorem registerInput_order (i : DistributionInput T) reg :
  (Storage.getInput (in_id i) reg = None ->
   Storage.getInputs (Storage.registerInput i reg) = Storage.getInputs reg ++ [i]) /\
  (forall old, Storage.getInput (in_id i) reg = Some old ->
   exists pre post, Storage.getInputs reg = pre ++ old :: post /\
                    Storage.getInputs (Storage.registerInput i reg) = pre ++ i :: post).
Proof.
  unfold Storage.getInput, Storage.getInputs, Storage.registerInput; cbn. split.
  - intros H. rewrite map_set_none by exact H. rewrite map_app. reflexivity.
  - intros old H. destruct (map_set_some _ i _ _ H) as (pre & post & E1 & E2).
    exists (map snd pre), (map snd post). rewrite E2, E1, !map_app. split; reflexivity.
Qed.

(** After any sequence of storage.ts calls, [getInputs()] lists no id
    twice, nor does [getOutputs()], and [getInput(id)] is the input of
    [getInputs()] with that id. *)
Theorem storage_ids_unique (calls : list (StorageCall T)) :
  let reg := storage_after calls in
  NoDup (map in_id (Storage.getInputs reg)) /\
  NoDup (map out_id (Storage.getOutputs reg)) /\
  forall id, Storage.getInput id reg
             = find (fun i => String.eqb (in_id i) id) (Storage.getInputs reg).
Proof.
  intros reg. destruct (storage_after_ok calls) as [I O]. fold reg in I, O.
  unfold Storage.getInputs, Storage.getOutputs, Storage.getInput.
  split; [|split].
  - rewrite <- keyed_fst by exact I. apply I.
  - rewrite <- keyed_fst by exact O. apply O.
  - intros id. apply map_get_find, I.
Qed.

(** After any sequence of storage.ts calls, [removeInput(id)] leaves no
    input under [id] and keeps the other inputs in their order. *)
Theorem removeInput_removes (calls : list (StorageCall T)) id :
  let reg := storage_after calls in
  Storage.getInput id (Storage.removeInput id reg) = None /\
  Storage.getInputs (Storage.removeInput id reg)
  = filter (fun i => negb (String.eqb (in_id i) id)) (Storage.getInputs reg).
Proof.
  intros reg. destruct (storage_after_ok calls) as [I _]. fold reg in I.
  unfold Storage.getInputs, Storage.getInput, Storage.removeInput; cbn.
  rewrite (map_get_find in_id) by apply (keyed_delete in_id id _ I).
  rewrite (map_delete_filter in_id) by exact I. split; [|reflexivity].
  induction (map snd (Storage.r_inputs reg)) as [|a l IH]; cbn; [reflexivity|].
  destruct (String.eqb (in_id a) id) eqn:E; cbn; [exact IH|]. rewrite E. exact IH.
Qed.
End StorageFacts.

(** ** distributions.ts: the generator and the samplers *)

Section Words.
Local Open Scope Z_scope.

Lemma in32_u32 x : in32 (u32 x).
Proof. unfold in32, u32. apply Z.mod_pos_bound. lia. Qed.

End Words.

Section Draws.
Local Open Scope R_scope.

Lemma rand_cases (st : St R) :
  exists u st', Distributions.rand st = Ret u st' /\
    (useSeededRng st = true -> 0 <= u < 1) /\
    (useSeededRng st = false -> u = mathRandom st (mrPos st)).
Proof.
  unfold Distributions.rand.
  destruct (useSeededRng st) eqn:E.
  - destruct (xoshiro_step (s_rng st)) as [r w] eqn:X.
    assert (Hr : in32 r).
    { change r with (fst (r, w)). rewrite <- X. unfold xoshiro_step.
      destruct (s_rng st) as [[[a b] c] d]. apply in32_u32. }
    do 2 eexists. split; [reflexivity|]. split; [|discriminate]. intros _.
    cbn [n_div n_of_Z Rnum]. unfold in32 in Hr.
    destruct Hr as [Hr0 Hr1]. apply IZR_le in Hr0. apply IZR_lt in Hr1.
    change (2 ^ 32)%Z with 4294967296%Z in Hr1.
    split.
    + apply Rmult_le_pos; [exact Hr0|]. left; apply Rinv_0_lt_compat; lra.
    + apply (Rmult_lt_reg_r 4294967296); [lra|]. unfold Rdiv.
      rewrite Rmult_assoc, Rinv_l by lra. lra.
  - do 2 eexists. split; [reflexivity|]. split; [discriminate|]. reflexivity.
Qed.

(** [rand()] always returns: with the seeded generator on, a value in
    [0, 1) ([(result >>> 0) / 4294967296]); otherwise the next
    [Math.random()] value. *)
Theorem rand_unit_interval (st : St R) :
  exists u st', Distributions.rand st = Ret u st' /\
    (useSeededRng st = true -> 0 <= u < 1) /\
    (useSeededRng st = false -> u = mathRandom st (mrPos st)).
Proof.
  destruct (rand_cases st) as (u & st' & E & Hs & Hm).
  exists u, st'. split; [exact E|]. split; [exact Hs|exact Hm].
Qed.

Lemma rand_draw (st : St R) :
  (useSeededRng st = true \/ 0 <= mathRandom st (mrPos st) < 1) ->
  exists u st', Distributions.rand st = Ret u st' /\ 0 <= u < 1.
Proof.
  intros Hd. destruct (rand_cases st) as (u & st' & E & Hs & Hm).
  exists u, st'. split; [exact E|].
  destruct (useSeededRng st); [auto|]. rewrite Hm by reflexivity.
  destruct Hd; [discriminate|auto].
Qed.

Lemma sqrt_le_bound a b : 0 <= b -> a <= b * b -> sqrt a <= b.
Proof.
  intros Hb Ha. destruct (Rle_or_lt a 0) as [Hn|Hp].
  - rewrite sqrt_neg_0 by exact Hn. exact Hb.
  - rewrite <- (sqrt_square b Hb). apply sqrt_le_1_alt. exact Ha.
Qed.

(** In exact (real) arithmetic, [sampleUniform(min, max)] with
    [min < max] and a draw in [0, 1) returns a value in [min, max).
    The statement is over [R]; with doubles, rounding of
    [min + u * (max - min)] can reach [max]. *)
Theorem sampleUniform_range (min max : R) (st : St R) :
  min < max ->
  (useSeededRng st = true \/ 0 <= mathRandom st (mrPos st) < 1) ->
  exists v st', Distributions.sampleUniform min max st = Ret v st' /\ min <= v < max.
Proof.
  intros Hlt Hd. destruct (rand_draw st Hd) as (u & st' & E & Hu).
  unfold Distributions.sampleUniform, mbind. rewrite E.
  exists (min + u * (max - min)), st'. split; [reflexivity|].
  split; nra.
Qed.

Lemma sampleUniform_range_witness :
  (0 < 1 /\ (useSeededRng ex_state = true \/ 0 <= mathRandom ex_state (mrPos ex_state) < 1)) /\
  exists v st', Distributions.sampleUniform 0 1 ex_state = Ret v st' /\ 0 <= v < 1.
Proof.
  assert (H1 : (0 < 1)%R) by lra.
  assert (H2 : useSeededRng ex_state = true \/ 0 <= mathRandom ex_state (mrPos ex_state) < 1)
    by (right; cbn; lra).
  split; [split; [exact H1|exact H2]|].
  exact (sampleUniform_range 0 1 ex_state H1 H2).
Defined.

(** In exact (real) arithmetic, [sampleTriangular(min, mode, max)] with
    [min < max], [mode] between them and a draw in [0, 1) returns a value
    in [min, max]. The statement is over [R]; rounding of doubles in
    the square roots and sums is not covered. *)
Theorem sampleTriangular_range (min mode max : R) (st : St R) :
  min < max -> min <= mode <= max ->
  (useSeededRng st = true \/ 0 <= mathRandom st (mrPos st) < 1) ->
  exists v st', Distributions.sampleTriangular min mode max st = Ret v st' /\
                min <= v <= max.
Proof.
  intros Hlt Hm Hd. destruct (rand_draw st Hd) as (u & st' & E & Hu).
  unfold Distributions.sampleTriangular, mbind. rewrite E.
  unfold Distributions.div_ck, mret.
  cbn [n_sub n_div n_eqb n_zero n_ltb n_add n_mul n_sqrt n_of_Z Rnum].
  set (fc := (mode - min) / (max - min)).
  assert (Hfc : fc * (max - min) = mode - min) by (unfold fc; field; lra).
  destruct (Rltb u fc) eqn:C; eexists; eexists; (split; [reflexivity|]).
  - apply Rltb_spec in C.
    pose proof (sqrt_pos (u * (max - min) * (mode - min))).
    assert (sqrt (u * (max - min) * (mode - min)) <= mode - min); [|lra].
    apply sqrt_le_bound; [lra|].
    assert (u * (max - min) <= mode - min) by nra. nra.
  - apply Rltb_false in C.
    pose proof (sqrt_pos ((1 - u) * (max - min) * (max - mode))).
    assert (sqrt ((1 - u) * (max - min) * (max - mode)) <= max - mode); [|lra].
    apply sqrt_le_bound; [lra|].
    assert ((1 - u) * (max - min) <= max - mode) by nra. nra.
Qed.

Lemma sampleTriangular_range_witness :
  (0 < 1 /\ 0 <= 1 / 4 <= 1 /\
   (useSeededRng ex_state = true \/ 0 <= mathRandom ex_state (mrPos ex_state) < 1)) /\
  exists v st', Distributions.sampleTriangular 0 (1 / 4) 1 ex_state = Ret v st' /\
                0 <= v <= 1.
Proof.
  assert (H1 : (0 < 1)%R) by lra.
  assert (H2 : (0 <= 1 / 4 <= 1)%R) by lra.
  assert (H3 : useSeededRng ex_state = true \/ 0 <= mathRandom ex_state (mrPos ex_state) < 1)
    by (right; cbn; lra).
  split; [split; [exact H1|split; [exact H2|exact H3]]|].
  exact (sampleTriangular_range 0 (1 / 4) 1 ex_state H1 H2 H3).
Defined.
End Draws.

Section Generic.
Context {T : Type} `{JSNum T} `{JSMath T}.

Lemma rand_returns (st : St T) : exists u st', Distributions.rand st = Ret u st'.
Proof.
  unfold Distributions.rand. destruct (useSeededRng st).
  - destruct (xoshiro_step (s_rng st)). eauto.
  - eauto.
Qed.

Lemma discrete_scan_member u ps values (st : St T) vs : forall cum i,
  exists v, Distributions.discrete_scan u cum i vs (Some ps) values st = Ret v st /\
            (In v vs \/ v = last values n_NaN).
Proof.
  induction vs as [|w vs IH]; intros cum i; cbn.
  - exists (last values n_NaN). split; [reflexivity|right; reflexivity].
  - destruct (n_leb u _).
    + exists w. split; [reflexivity|left; left; reflexivity].
    + destruct (IH (cum +# nth i ps n_NaN)%js (S i)) as (v & E & Hv).
      exists v. split; [exact E|]. destruct Hv as [Hv|Hv]; [left; right|right]; exact Hv.
Qed.

Lemma last_In {A} (l : list A) d : l <> [] -> In (last l d) l.
Proof.
  induction l as [|a l IH]; [contradiction|]. intros _.
  destruct l as [|b l]; [left; reflexivity|]. right. apply IH. discriminate.
Qed.

(** [sampleDiscrete(values, probs)] on a non-empty [values] draws once and
    returns one of the values, whatever [probs] holds (a short or
    non-normalised [probs] falls back to the last value); with [probs]
    undefined it throws after the draw. *)
Theorem sampleDiscrete_member (vs : list T) (st : St T) :
  vs <> [] ->
  (forall ps, exists u v st', Distributions.rand st = Ret u st' /\
     Distributions.sampleDiscrete (Some vs) (Some ps) st = Ret v st' /\ In v vs) /\
  (exists u st', Distributions.rand st = Ret u st' /\
     Distributions.sampleDiscrete (Some vs) None st
     = Throw "TypeError: Cannot read properties of undefined" st').
Proof.
  intros Hne. destruct (rand_returns st) as (u & st' & E).
  unfold Distributions.sampleDiscrete, mbind. rewrite E. split.
  - intros ps. destruct (discrete_scan_member u ps vs st' vs n_zero 0) as (v & E2 & Hv).
    exists u, v, st'. split; [reflexivity|]. split; [exact E2|].
    destruct Hv as [Hv| ->]; [exact Hv|apply last_In, Hne].
  - exists u, st'. split; [reflexivity|].
    destruct vs; [contradiction|reflexivity].
Qed.

(** [sampleStdNormal()] works in pairs: a call without a spare that
    returns leaves the second deviate as the spare, and the next call
    returns that spare, clears the flag and draws nothing. *)
Theorem sampleStdNormal_pairs fuel (st : St T) z st1 :
  hasSpare st = false ->
  Distributions.sampleStdNormal fuel st = Ret z st1 ->
  hasSpare st1 = true /\
  Distributions.sampleStdNormal fuel st1 = Ret (spare st1) (set_spare false (spare st1) st1).
Proof.
  intros Hs. unfold Distributions.sampleStdNormal at 1, mbind, mgets. rewrite Hs.
  destruct (Distributions.polar fuel st) as [[[u v] s] st2| |]; try discriminate.
  unfold Distributions.div_ck, mmodify, mret.
  intros [= <- <-]. split; [reflexivity|].
  reflexivity.
Qed.
End Generic.

Lemma sampleDiscrete_member_witness :
  [1; 2]%R <> [] /\
  ((forall ps, exists u v st', Distributions.rand ex_state = Ret u st' /\
      Distributions.sampleDiscrete (Some [1; 2]%R) (Some ps) ex_state = Ret v st' /\
      In v [1; 2]%R) /\
   (exists u st', Distributions.rand ex_state = Ret u st' /\
      Distributions.sampleDiscrete (Some [1; 2]%R) None ex_state
      = Throw "TypeError: Cannot read properties of undefined" st')).
Proof.
  assert (Hne : [1; 2]%R <> []) by discriminate.
  split; [exact Hne|]. exact (sampleDiscrete_member [1; 2]%R ex_state Hne).
Defined.

Lemma sampleStdNormal_pairs_witness :
  exists z st1,
    (hasSpare st_three_quarters = false /\
     Distributions.sampleStdNormal 1 st_three_quarters = Ret z st1) /\
    hasSpare st1 = true /\
    Distributions.sampleStdNormal 1 st1 = Ret (spare st1) (set_spare false (spare st1) st1).
Proof.
  assert (E : exists z st1, Distributions.sampleStdNormal 1 st_three_quarters = Ret z st1).
  { unfold Distributions.sampleStdNormal, Distributions.polar, Distributions.rand,
      Distributions.div_ck, mbind, mgets, mmodify, mret, n_leb; cbn.
    repeat match goal with
           | |- context [Rltb ?a ?b] => destruct (Rltb a b) eqn:?
           | |- context [Reqb ?a ?b] => destruct (Reqb a b) eqn:?
           end; cbn;
    repeat match goal with
           | H : Rltb _ _ = true |- _ => apply Rltb_spec in H
           | H : Reqb _ _ = true |- _ => apply Reqb_spec in H
           end;
    try (exfalso; lra); eauto. }
  destruct E as (z & st1 & E). exists z, st1.
  split; [split; [reflexivity|exact E]|].
  exact (sampleStdNormal_pairs 1 st_three_quarters z st1 eq_refl E).
Defined.

(** ** distributions.ts: the static (expected) values *)

Section Statics.
Local Open Scope R_scope.
Lemma skipn_cons_nth {A} (l : list A) i d :
  (i < length l)%nat -> skipn i l = nth i l d :: skipn (S i) l.
Proof.
  revert i; induction l as [|a l IH]; intros i Hi; cbn in Hi; [lia|].
  destruct i; [reflexivity|]. cbn. apply IH. lia.
Qed.

Lemma discrete_sum_R (ps : list R) vs : forall r i,
  (i + length vs <= length ps)%nat ->
  Distributions.discrete_sum r i vs (Some ps)
  = inr (r + fold_right (fun p acc => fst p * snd p + acc) 0 (combine vs (skipn i ps))).
Proof.
  induction vs as [|w vs IH]; intros r i Hl; cbn.
  - destruct (skipn i ps); cbn; f_equal; ring.
  - rewrite (skipn_cons_nth ps i 0) by (cbn in Hl; lia). cbn [combine fold_right fst snd].
    rewrite IH by (cbn in Hl; lia). cbn [n_add n_mul n_NaN Rnum]. f_equal. ring.
Qed.

Lemma weighted_between (l : list (R * R)) lo hi :
  Forall (fun p => lo <= fst p <= hi /\ 0 <= snd p) l ->
  lo * fold_right (fun p acc => snd p + acc) 0 l
  <= fold_right (fun p acc => fst p * snd p + acc) 0 l
  <= hi * fold_right (fun p acc => snd p + acc) 0 l.
Proof.
  induction 1 as [|[a w] l [Ha Hw] _ IH]; cbn in *; [lra|]. nra.
Qed.

Lemma combine_snd_sum (vs ps : list R) :
  length ps = length vs ->
  fold_right (fun p acc => snd p + acc) 0 (combine vs ps) = fold_right Rplus 0 ps.
Proof.
  revert ps; induction vs as [|v vs IH]; intros [|p ps] Hl; cbn in *; try lia; [reflexivity|].
  rewrite IH by lia. reflexivity.
Qed.

Lemma Forall_combine (vs ps : list R) lo hi :
  Forall (fun v => lo <= v <= hi) vs -> Forall (fun p => 0 <= p) ps ->
  Forall (fun p => lo <= fst p <= hi /\ 0 <= snd p) (combine vs ps).
Proof.
  intros Fv; revert ps; induction Fv as [|v vs Hv Fv IH]; intros [|p ps] Fp; cbn;
    constructor; inversion Fp; subst; auto.
Qed.

(** [staticDiscrete]: with probabilities that are non-negative, one per
    value and summing to 1, the expected value lies between any bounds of
    the values. *)
Theorem staticDiscrete_between (vs ps : list R) (lo hi : R) :
  length ps = length vs -> Forall (fun p => 0 <= p) ps -> fold_right Rplus 0 ps = 1 ->
  Forall (fun v => lo <= v <= hi) vs ->
  exists e, Distributions.staticDiscrete (Some vs) (Some ps) = inr e /\ lo <= e <= hi.
Proof.
  intros Hl Hp Hs Hv. unfold Distributions.staticDiscrete.
  rewrite discrete_sum_R by lia. eexists; split; [reflexivity|].
  pose proof (weighted_between _ lo hi (Forall_combine vs ps lo hi Hv Hp)) as W.
  rewrite combine_snd_sum, Hs in W by exact Hl. cbn [skipn n_zero Rnum]. lra.
Qed.

(** In exact (real) arithmetic, [staticValue] of a uniform, triangular
    or PERT input whose [min], [mode] and [max] are numbers [a <= b <= c]
    lies between [a] and [c]. Parameters that are not numbers are outside
    the statement (see [Distributions.param_num]). *)
Theorem staticValue_between (type : string) (params : list (string * Param R)) (a b c : R) :
  In type ["uniform"; "triangular"; "pert"]%string ->
  Distributions.param_num params "min" = Some a ->
  Distributions.param_num params "mode" = Some b ->
  Distributions.param_num params "max" = Some c ->
  a <= b <= c ->
  exists v, Distributions.staticValue type params = Some (inr v) /\ a <= v <= c.
Proof.
  intros Ht Ha Hb Hc Hm. unfold Distributions.staticValue. cbv zeta.
  rewrite Ha, Hb, Hc.
  destruct Ht as [<-|[<-|[<-|[]]]]; cbn [String.eqb Ascii.eqb Bool.eqb andb];
    eexists; split; try reflexivity;
    unfold Distributions.staticUniform, Distributions.staticTriangular,
      Distributions.staticPERT; cbn [n_add n_mul n_div n_of_Z Rnum]; lra.
Qed.

(** A distribution type other than the six supported ones is rejected
    by both dispatchers with [Unknown distribution: <type>]; the sampler
    throws before drawing, leaving the state as it was. *)
Theorem unknown_type_rejected fuel (type : string) (params : list (string * Param R)) (st : St R) :
  ~ In type ["normal"; "uniform"; "triangular"; "pert"; "lognormal"; "discrete"]%string ->
  Distributions.staticValue type params = Some (inl ("Unknown distribution: " ++ type)%string) /\
  Distributions.sampleDistribution fuel type params st
  = Throw ("Unknown distribution: " ++ type)%string st.
Proof.
  intros Hn. unfold Distributions.staticValue, Distributions.sampleDistribution.
  repeat match goal with
         | |- context [String.eqb type ?s] =>
             destruct (String.eqb_spec type s) as [->|]; [exfalso; apply Hn; cbn; tauto|]
         end.
  split; reflexivity.
Qed.

Lemma staticDiscrete_between_witness :
  (length [1/2; 1/2] = length [0; 1] /\ Forall (fun p => 0 <= p) [1/2; 1/2] /\
   fold_right Rplus 0 [1/2; 1/2] = 1 /\ Forall (fun v => 0 <= v <= 1) [0; 1]) /\
  exists e, Distributions.staticDiscrete (Some [0; 1]) (Some [1/2; 1/2]) = inr e /\
            0 <= e <= 1.
Proof.
  assert (H1 : length [1/2; 1/2] = length [0; 1]) by reflexivity.
  assert (H2 : Forall (fun p => 0 <= p) [1/2; 1/2]) by (repeat constructor; lra).
  assert (H3 : fold_right Rplus 0 [1/2; 1/2] = 1) by (cbn; lra).
  assert (H4 : Forall (fun v => 0 <= v <= 1) [0; 1]) by (repeat constructor; lra).
  split; [repeat split; assumption|].
  exact (staticDiscrete_between [0; 1] [1/2; 1/2] 0 1 H1 H2 H3 H4).
Defined.

Lemma staticValue_between_witness :
  let params := [("min"%string, PNum 0); ("mode"%string, PNum (1/2)); ("max"%string, PNum 1)] in
  (In "pert"%string ["uniform"; "triangular"; "pert"]%string /\
   Distributions.param_num params "min" = Some 0 /\
   Distributions.param_num params "mode" = Some (1/2) /\
   Distributions.param_num params "max" = Some 1 /\ 0 <= 1/2 <= 1) /\
  exists v, Distributions.staticValue "pert" params = Some (inr v) /\ 0 <= v <= 1.
Proof.
  intros params.
  assert (H1 : In "pert"%string ["uniform"; "triangular"; "pert"]%string)
    by (right; right; left; reflexivity).
  assert (H2 : Distributions.param_num params "min" = Some 0) by reflexivity.
  assert (H3 : Distributions.param_num params "mode" = Some (1/2)) by reflexivity.
  assert (H4 : Distributions.param_num params "max" = Some 1) by reflexivity.
  assert (H5 : 0 <= 1/2 <= 1) by lra.
  split; [exact (conj H1 (conj H2 (conj H3 (conj H4 H5))))|].
  exact (staticValue_between "pert" params 0 (1/2) 1 H1 H2 H3 H4 H5).
Defined.

Lemma unknown_type_rejected_witness :
  ~ In "beta"%string ["normal"; "uniform"; "triangular"; "pert"; "lognormal"; "discrete"]%string /\
  Distributions.staticValue "beta" [] = Some (inl ("Unknown distribution: " ++ "beta")%string) /\
  Distributions.sampleDistribution 1 "beta" [] ex_state
  = Throw ("Unknown distribution: " ++ "beta")%string ex_state.
Proof.
  assert (H : ~ In "beta"%string ["normal"; "uniform"; "triangular"; "pert"; "lognormal"; "discrete"]%string)
    by (cbn; intuition discriminate).
  split; [exact H|]. exact (unknown_type_rejected 1 "beta" [] ex_state H).
Defined.
End Statics.

(** ** statistics.ts: computeStatistics *)

Section StatsFacts.
Local Open Scope R_scope.
Lemma sorted_nth_mono (l : list R) d i j :
  StronglySorted (fun a b => - b <= - a) l -> (i <= j < length l)%nat ->
  nth i l d <= nth j l d.
Proof.
  intros SS; revert i j; induction SS as [|a l SS IH Hall]; intros i j Hij; cbn in Hij; [lia|].
  rewrite Forall_forall in Hall.
  destruct i, j; cbn; try lra; try lia.
  - pose proof (Hall _ (nth_In l d (ltac:(lia) : (j < length l)%nat))). lra.
  - apply IH. lia.
Qed.

Lemma sum_between (l : list R) lo hi :
  Forall (fun v => lo <= v <= hi) l ->
  INR (length l) * lo <= fold_right Rplus 0 l <= INR (length l) * hi.
Proof.
  induction 1 as [|v l Hv _ IH]; cbn [fold_right length]; [cbn; lra|].
  rewrite S_INR. lra.
Qed.

Lemma fold_left_Rplus (l : list R) a : fold_left Rplus l a = a + fold_right Rplus 0 l.
Proof. revert a; induction l as [|v l IH]; intros a; cbn; [ring|]. rewrite IH; ring. Qed.

Lemma central_sums_nonneg (values : list R) m :
  0 <= fst (fst (Statistics.central_sums values m)).
Proof.
  unfold Statistics.central_sums.
  assert (G : forall l a b c, 0 <= a ->
            0 <= fst (fst (fold_left (fun acc v => let '(s2, s3, s4) := acc in
               let diff := (v -# m)%js in let d2 := (diff *# diff)%js in
               ((s2 +# d2)%js, (s3 +# d2 *# diff)%js, (s4 +# d2 *# d2)%js)) l (a, b, c)))).
  { induction l as [|v l IH]; intros a b c Ha; cbn [fold_left]; [exact Ha|].
    apply IH. cbn [n_add n_mul n_sub Rnum]. pose proof (Rle_0_sqr (v - m)).
    unfold Rsqr in *. lra. }
  apply G. cbn. lra.
Qed.

Section Sorted.
Variable values : list R.
Hypothesis Hne : values <> [].

Lemma sorted_len : length (js_sort Statistics.ascending values) = length values.
Proof. apply Permutation_length, js_sort_perm. Qed.

Lemma n_pos : (0 < length values)%nat.
Proof. destruct values; [contradiction|cbn; lia]. Qed.

Lemma values_between :
  Forall (fun v => nth 0 (js_sort Statistics.ascending values) 0 <= v
                   <= nth (length values - 1) (js_sort Statistics.ascending values) 0) values.
Proof.
  apply Forall_forall. intros v Hv. rewrite <- sorted_len.
  apply sorted_between; [apply sort_ascending|].
  apply (Permutation_in _ (Permutation_sym (js_sort_perm _ _)) Hv).
Qed.

Lemma nth_sorted_between k : (k < length values)%nat ->
  nth 0 (js_sort Statistics.ascending values) 0 <= nth k (js_sort Statistics.ascending values) 0
  <= nth (length values - 1) (js_sort Statistics.ascending values) 0.
Proof.
  intros Hk. pose proof (sort_ascending values) as SS.
  rewrite <- sorted_len in *. split; apply sorted_nth_mono; auto; lia.
Qed.
End Sorted.

(** [computeStatistics] of a non-empty array: the mean and the median lie
    between the minimum and the maximum, the variance and the standard
    deviation are non-negative, [probNegative] is a probability and
    [count] is the length of the array. *)
Theorem computeStatistics_bounds (values : list R) (cl : R) :
  values <> [] ->
  let s := Statistics.computeStatistics values cl in
  minimum s <= st_mean s <= maximum s /\
  minimum s <= median s <= maximum s /\
  0 <= variance s /\ 0 <= st_stdDev s /\
  0 <= probNegative s <= 1 /\
  count s = length values.
Proof.
  intros Hne s. unfold s, Statistics.computeStatistics.
  pose proof (n_pos values Hne) as Hn.
  destruct (length values =? 0)%nat eqn:E0; [apply Nat.eqb_eq in E0; lia|].
  destruct (Statistics.central_sums values _) as [[s2 s3] s4] eqn:Ec.
  pose proof (central_sums_nonneg values
               (fold_left n_add values n_zero /# n_of_nat (length values))%js) as Hs2.
  rewrite Ec in Hs2. cbn in Hs2.
  cbn [minimum maximum st_mean median variance st_stdDev probNegative count].
  unfold n_of_nat. cbn [n_add n_sub n_mul n_div n_zero n_of_Z n_sqrt Rnum].
  rewrite <- INR_IZR_INZ.
  assert (HnR : 0 < INR (length values)) by (apply lt_0_INR; exact Hn).
  set (lo := nth 0 (js_sort Statistics.ascending values) 0).
  set (hi := nth (length values - 1) (js_sort Statistics.ascending values) 0).
  split; [|split; [|split; [|split; [|split]]]].
  - pose proof (sum_between values lo hi (values_between values)) as B.
    change (fold_left n_add values n_zero) with (fold_left Rplus values 0).
    rewrite fold_left_Rplus, Rplus_0_l.
    split; [apply (Rmult_le_reg_r (INR (length values))); [exact HnR|]
           |apply (Rmult_le_reg_r (INR (length values))); [exact HnR|]];
      unfold Rdiv; rewrite Rmult_assoc, Rinv_l by lra; lra.
  - destruct (length values mod 2 =? 0)%nat eqn:Ep.
    + apply Nat.eqb_eq in Ep.
      assert (2 <= length values)%nat.
      { destruct (length values) as [|[|k]]; [lia| |lia]. cbn in Ep. discriminate. }
      pose proof (nth_sorted_between values (length values / 2 - 1) ltac:(
        pose proof (Nat.div_lt (length values) 2); lia)) as B1.
      pose proof (nth_sorted_between values (length values / 2) ltac:(
        apply Nat.div_lt; lia)) as B2.
      fold lo hi in B1, B2. lra.
    + pose proof (nth_sorted_between values (length values / 2) ltac:(
        apply Nat.div_lt; lia)) as B. fold lo hi in B. lra.
  - apply Rdiv_nonneg; lra.
  - apply sqrt_pos.
  - pose proof (filter_length_le (fun v => n_ltb v n_zero) values) as Hf.
    apply le_INR in Hf. cbn [n_ltb n_zero Rnum] in Hf. rewrite <- INR_IZR_INZ. split.
    + apply Rdiv_nonneg; [apply pos_INR|lra].
    + unfold Rdiv. apply (Rmult_le_reg_r (INR (length values))); [exact HnR|].
      rewrite Rmult_assoc, Rinv_l by lra. cbn [n_ltb n_zero Rnum]. lra.
  - reflexivity.
Qed.

Lemma floor_nat r : 0 <= r -> exists k, INR k <= r < INR k + 1.
Proof.
  intros Hr. destruct (base_Int_part r) as [H1 H2].
  assert (H0 : (0 <= Int_part r)%Z).
  { assert (IZR (-1) < IZR (Int_part r)) by lra. apply lt_IZR in H. lia. }
  exists (Z.to_nat (Int_part r)). rewrite INR_IZR_INZ, Z2Nat.id by exact H0. lra.
Qed.

Section Pct.
Variable sorted : list R.
Hypothesis SS : StronglySorted (fun a b => - b <= - a) sorted.
Local Abbreviation s i := (nth i sorted 0).

Lemma s_mono i j : (i <= j < length sorted)%nat -> s i <= s j.
Proof. apply sorted_nth_mono, SS. Qed.

Lemma pct_mono p q :
  (2 <= length sorted)%nat -> 0 <= p -> p <= q -> q <= 1 ->
  Statistics.percentile sorted p <= Statistics.percentile sorted q.
Proof.
  intros Hn Hp Hpq Hq.
  set (N := INR (length sorted - 1)).
  assert (HN : 0 <= N) by apply pos_INR.
  destruct (floor_nat (p * N)) as [k1 Hk1]; [nra|].
  destruct (floor_nat (q * N)) as [k2 Hk2]; [nra|].
  rewrite (percentile_interp sorted p k1 Hn Hk1), (percentile_interp sorted q k2 Hn Hk2).
  fold N.
  assert (Hk2n : (k2 <= length sorted - 1)%nat).
  { apply INR_le. fold N. nra. }
  assert (Hk12 : (k1 <= k2)%nat).
  { assert (INR k1 < INR (S k2)) by (rewrite S_INR; nra). apply INR_lt in H. lia. }
  destruct (Nat.eq_dec k2 (length sorted - 1)) as [E2|E2].
  - assert (EN : INR k2 = N) by (unfold N; rewrite E2; reflexivity).
    assert (q * N <= N) by nra. assert (p * N <= q * N) by nra.
    assert (R2 : q * N = INR k2) by lra.
    rewrite R2, Rminus_diag, Rmult_0_l, Rplus_0_r.
    destruct (Nat.eq_dec k1 k2) as [->|E1].
    + assert (R1 : p * N = INR k2) by lra.
      rewrite R1. lra.
    + pose proof (s_mono k1 (S k1) ltac:(lia)). pose proof (s_mono (S k1) k2 ltac:(lia)).
      nra.
  - pose proof (s_mono k2 (S k2) ltac:(lia)).
    destruct (Nat.eq_dec k1 k2) as [->|E1].
    + assert (p * N <= q * N) by nra. nra.
    + pose proof (s_mono k1 (S k1) ltac:(lia)). pose proof (s_mono (S k1) k2 ltac:(lia)).
      nra.
Qed.

Lemma pct_ends :
  (1 <= length sorted)%nat ->
  Statistics.percentile sorted 0 = s 0 /\
  Statistics.percentile sorted 1 = s (length sorted - 1).
Proof.
  intros Hn. destruct (Nat.eq_dec (length sorted) 1) as [E|E].
  - unfold Statistics.percentile. rewrite E. cbn. split; reflexivity.
  - split.
    + rewrite (percentile_interp sorted 0 0) by (cbn; try lia; rewrite Rmult_0_l; lra).
      cbn. ring.
    + rewrite (percentile_interp sorted 1 (length sorted - 1)) by (try lia; lra).
      ring.
Qed.

Lemma pct_between p :
  (1 <= length sorted)%nat -> 0 <= p <= 1 ->
  s 0 <= Statistics.percentile sorted p <= s (length sorted - 1).
Proof.
  intros Hn Hp. destruct (pct_ends Hn) as [E0 E1].
  destruct (Nat.eq_dec (length sorted) 1) as [E|E].
  - unfold Statistics.percentile. rewrite E. cbn. lra.
  - rewrite <- E0, <- E1. split; apply pct_mono; lia || lra.
Qed.
End Pct.

Lemma pct_mono1 (sorted : list R) p q :
  StronglySorted (fun a b => - b <= - a) sorted ->
  (1 <= length sorted)%nat -> 0 <= p -> p <= q -> q <= 1 ->
  Statistics.percentile sorted p <= Statistics.percentile sorted q.
Proof.
  intros SS Hn Hp Hpq Hq. destruct (Nat.eq_dec (length sorted) 1) as [E|E].
  - unfold Statistics.percentile. rewrite E. cbn. lra.
  - apply pct_mono; auto; lia.
Qed.

Lemma lit2 (a : Z) : lit a 2 = IZR a / 100.
Proof. unfold lit. cbn [n_of_Z n_div Rnum]. reflexivity. Qed.

(** In exact (real) arithmetic, [computeStatistics] of a non-empty array
    with a confidence level in [0, 1]: the minimum, the nine percentiles
    and the maximum are in order, and the confidence interval is ordered
    and lies between the minimum and the maximum. The statement is over
    [R]; with doubles the interpolation can overshoot, e.g. p10 of
    [0.1, 0.1, 0.1] exceeds the maximum. *)
Theorem computeStatistics_percentiles_ordered (values : list R) (cl : R) :
  values <> [] -> 0 <= cl <= 1 ->
  let s := Statistics.computeStatistics values cl in
  let P := percentiles s in
  minimum s <= p1 P /\ p1 P <= p5 P /\ p5 P <= p10 P /\ p10 P <= p25 P /\
  p25 P <= p50 P /\ p50 P <= p75 P /\ p75 P <= p90 P /\ p90 P <= p95 P /\
  p95 P <= p99 P /\ p99 P <= maximum s /\
  minimum s <= fst (confidenceInterval s) /\
  fst (confidenceInterval s) <= snd (confidenceInterval s) /\
  snd (confidenceInterval s) <= maximum s.
Proof.
  intros Hne Hcl s P. unfold P, s, Statistics.computeStatistics.
  pose proof (n_pos values Hne) as Hn.
  destruct (length values =? 0)%nat eqn:E0; [apply Nat.eqb_eq in E0; lia|].
  destruct (Statistics.central_sums values _) as [[s2 s3] s4].
  cbn [minimum maximum percentiles confidenceInterval p1 p5 p10 p25 p50 p75 p90 p95 p99 fst snd].
  pose proof (sort_ascending values) as SS.
  pose proof (sorted_len values) as SL.
  set (sorted := js_sort Statistics.ascending values) in *.
  assert (H1 : (1 <= length sorted)%nat) by lia.
  rewrite !lit2.
  assert (M : forall p q, 0 <= p -> p <= q -> q <= 1 ->
            Statistics.percentile sorted p <= Statistics.percentile sorted q)
    by (intros; apply pct_mono1; auto).
  assert (B : forall p, 0 <= p <= 1 ->
            nth 0 sorted 0 <= Statistics.percentile sorted p <= nth (length values - 1) sorted 0)
    by (intros; rewrite <- SL; apply pct_between; auto).
  cbn [n_zero n_sub n_div n_of_Z Rnum].
  set (alpha := (1 - cl) / 2).
  assert (0 <= alpha <= 1 / 2) by (unfold alpha; lra).
  repeat split;
    solve [ apply M; lra
          | apply B; lra
          | match goal with |- _ <= Statistics.percentile _ ?p => apply (B p); lra end
          | match goal with |- Statistics.percentile _ ?p <= _ => apply (B p); lra end ].
Qed.

(** [computeStatistics] of a non-empty array: the interpolated 50th
    percentile equals the median, for an odd and an even length alike. *)
Theorem computeStatistics_p50_median (values : list R) (cl : R) :
  values <> [] ->
  let s := Statistics.computeStatistics values cl in
  p50 (percentiles s) = median s.
Proof.
  intros Hne s. unfold s, Statistics.computeStatistics.
  pose proof (n_pos values Hne) as Hn.
  destruct (length values =? 0)%nat eqn:E0; [apply Nat.eqb_eq in E0; lia|].
  destruct (Statistics.central_sums values _) as [[s2 s3] s4].
  cbn [median percentiles p50]. rewrite lit2.
  pose proof (sorted_len values) as SL.
  set (sorted := js_sort Statistics.ascending values) in *.
  rewrite <- SL in *. clear E0.
  destruct (Nat.Even_or_Odd (length sorted)) as [[m Em]|[m Em]].
  - assert (Hm : (1 <= m)%nat) by lia.
    assert (D : (length sorted / 2 = m)%nat) by (symmetry; apply (Nat.div_unique _ 2 m 0); lia).
    assert (Mod : (length sorted mod 2 = 0)%nat) by (rewrite Em, Nat.mul_comm, Nat.Div0.mod_mul; reflexivity).
    rewrite Mod, D. cbn [Nat.eqb].
    rewrite (percentile_interp sorted _ (m - 1)).
    + replace (S (m - 1)) with m by lia.
      rewrite Em, minus_INR by lia. rewrite mult_INR, minus_INR by lia.
      cbn [n_add n_div n_of_Z n_zero Rnum]. cbn [INR]. field.
    + lia.
    + rewrite Em, minus_INR by lia. rewrite minus_INR, mult_INR by lia. cbn [INR]. lra.
  - assert (D : (length sorted / 2 = m)%nat) by (symmetry; apply (Nat.div_unique _ 2 m 1); lia).
    assert (Mod : (length sorted mod 2 = 1)%nat) by (symmetry; apply (Nat.mod_unique _ 2 m 1); lia).
    rewrite Mod, D. cbn [Nat.eqb].
    destruct (Nat.eq_dec m 0) as [->|Hm].
    + unfold Statistics.percentile. rewrite Em. reflexivity.
    + rewrite (percentile_interp sorted _ m).
      * rewrite Em. replace (2 * m + 1 - 1)%nat with (2 * m)%nat by lia.
        rewrite mult_INR. cbn [INR n_zero Rnum].
        replace (50 / 100 * ((1 + 1) * INR m) - INR m) with 0 by lra. ring.
      * lia.
      * rewrite Em. replace (2 * m + 1 - 1)%nat with (2 * m)%nat by lia.
        rewrite mult_INR. cbn [INR]. lra.
Qed.
End StatsFacts.

Lemma computeStatistics_bounds_witness :
  [0; 1]%R <> [] /\
  let s := Statistics.computeStatistics [0; 1]%R (95 / 100)%R in
  (minimum s <= st_mean s <= maximum s /\
   minimum s <= median s <= maximum s /\
   0 <= variance s /\ 0 <= st_stdDev s /\
   0 <= probNegative s <= 1 /\
   count s = length [0; 1]%R)%R.
Proof.
  assert (Hne : [0; 1]%R <> []) by discriminate.
  split; [exact Hne|]. exact (computeStatistics_bounds [0; 1]%R (95 / 100)%R Hne).
Defined.

Lemma computeStatistics_percentiles_ordered_witness :
  ([0; 1]%R <> [] /\ (0 <= 95 / 100 <= 1)%R) /\
  let s := Statistics.computeStatistics [0; 1]%R (95 / 100)%R in
  let P := percentiles s in
  (minimum s <= p1 P /\ p1 P <= p5 P /\ p5 P <= p10 P /\ p10 P <= p25 P /\
   p25 P <= p50 P /\ p50 P <= p75 P /\ p75 P <= p90 P /\ p90 P <= p95 P /\
   p95 P <= p99 P /\ p99 P <= maximum s /\
   minimum s <= fst (confidenceInterval s) /\
   fst (confidenceInterval s) <= snd (confidenceInterval s) /\
   snd (confidenceInterval s) <= maximum s)%R.
Proof.
  assert (Hne : [0; 1]%R <> []) by discriminate.
  assert (Hcl : (0 <= 95 / 100 <= 1)%R) by lra.
  split; [split; [exact Hne|exact Hcl]|].
  exact (computeStatistics_percentiles_ordered [0; 1]%R (95 / 100)%R Hne Hcl).
Defined.

Lemma computeStatistics_p50_median_witness :
  [0; 1]%R <> [] /\
  let s := Statistics.computeStatistics [0; 1]%R (95 / 100)%R in
  p50 (percentiles s) = median s.
Proof.
  assert (Hne : [0; 1]%R <> []) by discriminate.
  split; [exact Hne|]. exact (computeStatistics_p50_median [0; 1]%R (95 / 100)%R Hne).
Defined.

(** ** statistics.ts: the mode estimate and computeHistogram *)

Section ModeHist.
Local Open Scope R_scope.
Lemma fill_bins_length sorted (lo bw : R) nb bins :
  length (Statistics.fill_bins sorted lo bw nb bins) = length bins.
Proof.
  unfold Statistics.fill_bins. revert bins.
  induction sorted as [|v sorted IH]; intros bins; cbn [fold_left]; [reflexivity|].
  rewrite IH. apply upd_length.
Qed.

Lemma argmax_from_lt bins : forall i m c,
  (m < i + length bins)%nat -> (Statistics.argmax_from i bins m c < i + length bins)%nat.
Proof.
  induction bins as [|b bins IH]; intros i m c Hm; cbn [Statistics.argmax_from length] in *;
    [exact Hm|].
  destruct (c <? b)%nat; replace (i + S (length bins))%nat with (S i + length bins)%nat by lia; apply IH; lia.
Qed.

Lemma computeMode_between (sorted : list R) :
  StronglySorted (fun a b => - b <= - a) sorted ->
  nth 0 sorted 0 <= Statistics.computeMode sorted <= nth (length sorted - 1) sorted 0.
Proof.
  intros SS. unfold Statistics.computeMode.
  assert (Hle : nth 0 sorted 0 <= nth (length sorted - 1) sorted 0).
  { destruct sorted as [|a l]; [cbn; lra|].
    apply sorted_nth_mono; [exact SS|cbn; lia]. }
  destruct (length sorted <=? 2)%nat eqn:E2; [cbn [n_zero Rnum]; lra|].
  apply Nat.leb_gt in E2.
  cbn [n_sub n_eqb n_zero Rnum].
  destruct (Reqb _ 0) eqn:Er; [lra|]. apply Reqb_false in Er.
  set (range := nth (length sorted - 1) sorted 0 - nth 0 sorted 0) in *.
  set (nb := Statistics.sturges 10 200 (length sorted)).
  assert (Hnb : (10 <= nb)%Z) by apply sturges_lo.
  set (bins := Statistics.fill_bins _ _ _ _ _).
  assert (Hlen : length bins = Z.to_nat nb).
  { unfold bins. rewrite fill_bins_length, repeat_length. reflexivity. }
  pose proof (argmax_from_lt bins 0 0 0 ltac:(lia)) as Hmax. cbn [Nat.add] in Hmax.
  set (k := Statistics.argmax_from 0 bins 0 0) in *.
  assert (Hk : (INR k + 1 <= IZR nb)).
  { rewrite <- S_INR, INR_IZR_INZ. apply IZR_le. lia. }
  assert (Hr : 0 < range) by (unfold range in *; lra).
  assert (HnbR : 10 <= IZR nb) by (apply IZR_le; exact Hnb).
  unfold lit, n_of_nat. cbn [n_add n_mul n_div n_of_Z Rnum]. rewrite <- INR_IZR_INZ.
  replace (IZR (10 ^ 1)) with 10 by reflexivity.
  assert (0 <= INR k) by apply pos_INR.
  assert (Q : 0 <= (INR k + 5 / 10) * (range / IZR nb) <= range).
  { split.
    - apply Rmult_le_pos; [lra|]. apply Rdiv_nonneg; lra.
    - apply (Rmult_le_reg_r (IZR nb)); [lra|].
      unfold Rdiv. rewrite (Rmult_assoc _ (range * / IZR nb)), (Rmult_assoc range),
        Rinv_l, Rmult_1_r by lra. nra. }
  assert (Er2 : range = nth (length sorted - 1) sorted 0 - nth 0 sorted 0) by reflexivity.
  lra.
Qed.

(** The mode estimate of [computeStatistics], the centre of the fullest
    bin of [computeMode], lies between the minimum and the maximum; for
    the empty array all three are 0. *)
Theorem computeStatistics_mode_between (values : list R) (cl : R) :
  let s := Statistics.computeStatistics values cl in
  minimum s <= mode s <= maximum s.
Proof.
  intros s. unfold s, Statistics.computeStatistics.
  destruct (length values =? 0)%nat eqn:E0; [cbn; lra|].
  destruct (Statistics.central_sums values _) as [[s2 s3] s4].
  cbn [minimum maximum mode]. rewrite <- (sorted_len values).
  apply computeMode_between, sort_ascending.
Qed.

(** In exact (real) arithmetic, every value falls in exactly one bin of
    [computeHistogram]: for any explicit bin count of at least 1 and for
    the default one, the loop [result[idx].count++] finds a bin for every
    value (no TypeError is thrown), and the counts sum to the number of
    values. The statement is over [R]; with doubles, a range
    [max - min] that overflows to Infinity makes [idx] NaN and the loop
    throws. *)
Theorem computeHistogram_counts (values : list R) (numBins : option Z) :
  (forall b, numBins = Some b -> (1 <= b)%Z) ->
  exists bins, Statistics.computeHistogram values numBins = inr bins /\
    list_sum (map h_count bins) = length values.
Proof.
  intros Hb. destruct values as [|v0 vs]; [exists []; split; reflexivity|].
  remember (v0 :: vs) as values eqn:Ev.
  assert (Hne : values <> []) by (subst; discriminate). clear Ev.
  pose proof (sort_ascending values) as SS.
  pose proof (js_sort_perm Statistics.ascending values) as P.
  set (sorted := js_sort Statistics.ascending values) in *.
  set (lo := nth 0 sorted 0). set (hi := nth (length values - 1) sorted 0).
  assert (Hn : (0 < length values)%nat) by (destruct values; [congruence|cbn; lia]).
  assert (Hlo : In lo values).
  { apply (Permutation_in _ P), nth_In. rewrite (Permutation_length P). exact Hn. }
  assert (Hhi : In hi values).
  { apply (Permutation_in _ P), nth_In. rewrite (Permutation_length P). lia. }
  assert (F : Forall (fun v => lo <= v <= hi) values).
  { apply Forall_forall. intros v Hv.
    pose proof (sorted_between sorted 0 v SS (Permutation_in _ (Permutation_sym P) Hv)) as B.
    rewrite (Permutation_length P) in B. exact B. }
  destruct (Req_dec_T lo hi) as [Eq|Ne].
  - unfold Statistics.computeHistogram.
    destruct (length values =? 0)%nat eqn:E0; [apply Nat.eqb_eq in E0; lia|].
    cbn [n_sub n_eqb n_zero Rnum]. fold sorted. fold lo hi.
    replace (Reqb (hi - lo) 0) with true by (symmetry; apply Reqb_spec; lra).
    eexists; split; [reflexivity|]. cbn. lia.
  - assert (Hlt : lo < hi).
    { rewrite Forall_forall in F. destruct (F lo Hlo). lra. }
    destruct (histogram_bins_nonconstant values numBins lo hi Hlo Hhi F Hlt)
      as (bins & E & _ & _ & Sum).
    + destruct numBins as [b|]; [apply Hb; reflexivity|].
      apply (Z.le_trans _ 20); [lia|apply sturges_lo].
    + exists bins. auto.
Qed.
End ModeHist.

Lemma computeHistogram_counts_witness :
  (forall b, (None : option Z) = Some b -> (1 <= b)%Z) /\
  exists bins, Statistics.computeHistogram [0; 1]%R None = inr bins /\
    list_sum (map h_count bins) = length [0; 1]%R.
Proof.
  assert (Hb : forall b, (None : option Z) = Some b -> (1 <= b)%Z) by discriminate.
  split; [exact Hb|]. exact (computeHistogram_counts [0; 1]%R None Hb).
Defined.

(** ** statistics.ts: computeCDF *)

Section CDF.
Local Open Scope R_scope.
Lemma n_leb_R a b : n_leb a b = Rleb a b.
Proof.
  unfold n_leb, Rleb. cbn [n_ltb n_eqb Rnum].
  destruct (Rle_dec a b) as [H|H].
  - destruct (Rltb a b) eqn:E1; [reflexivity|]. apply Rltb_false in E1.
    cbn. apply Reqb_spec. lra.
  - destruct (Rltb a b) eqn:E1; [apply Rltb_spec in E1; lra|].
    destruct (Reqb a b) eqn:E2; [apply Reqb_spec in E2; lra|reflexivity].
Qed.

Lemma count_le_perm x l l' : Permutation l l' -> count_le x l = count_le x l'.
Proof.
  unfold count_le. induction 1 as [|a l l' _ IH|a b l|l l' l'' _ IH1 _ IH2]; cbn; auto.
  - destruct (Rleb a x); cbn; auto.
  - destruct (Rleb b x), (Rleb a x); cbn; auto.
  - congruence.
Qed.

Lemma count_le_app x l1 l2 : count_le x (l1 ++ l2) = (count_le x l1 + count_le x l2)%nat.
Proof. unfold count_le. rewrite filter_app, length_app. reflexivity. Qed.

Lemma count_le_all x l : Forall (fun v => v <= x) l -> count_le x l = length l.
Proof.
  unfold count_le. induction 1 as [|v l Hv _ IH]; cbn; [reflexivity|].
  unfold Rleb at 1. destruct (Rle_dec v x); [cbn; lia|lra].
Qed.

Lemma count_le_none x l : Forall (fun v => x < v) l -> count_le x l = 0%nat.
Proof.
  unfold count_le. induction 1 as [|v l Hv _ IH]; cbn; [reflexivity|].
  unfold Rleb at 1. destruct (Rle_dec v x); [lra|exact IH].
Qed.

Lemma count_le_le x l : (count_le x l <= length l)%nat.
Proof. apply filter_length_le. Qed.

Lemma count_le_mono x y l : x <= y -> (count_le x l <= count_le y l)%nat.
Proof.
  intros Hxy. unfold count_le. induction l as [|v l IH]; cbn; [lia|].
  destruct (Rleb v x) eqn:E1, (Rleb v y) eqn:E2; cbn; try lia.
  unfold Rleb in E1, E2. destruct (Rle_dec v x), (Rle_dec v y); try discriminate. lra.
Qed.

Local Abbreviation ASC := (fun a b : R => - b <= - a).

Lemma StronglySorted_skipn (l : list R) i : StronglySorted ASC l -> StronglySorted ASC (skipn i l).
Proof.
  revert l; induction i as [|i IH]; intros l SS; [exact SS|].
  destruct l as [|a l]; [constructor|]. apply IH. inversion SS; assumption.
Qed.

Lemma cdf_advance_count (rest : list R) idx x :
  StronglySorted ASC rest ->
  Statistics.cdf_advance rest idx x = (skipn (count_le x rest) rest, (idx + count_le x rest)%nat) /\
  Forall (fun v => v <= x) (firstn (count_le x rest) rest).
Proof.
  intros SS; revert idx; induction SS as [|v rest SS IH Hall]; intros idx; cbn.
  - rewrite Nat.add_0_r. split; [reflexivity|constructor].
  - rewrite n_leb_R. unfold count_le in *. cbn. destruct (Rleb v x) eqn:E.
    + cbn. destruct (IH (S idx)) as [E1 F1]. rewrite E1. split.
      * f_equal. lia.
      * constructor; [|exact F1]. unfold Rleb in E. destruct (Rle_dec v x); [lra|discriminate].
    + assert (Hn : forall w, In w rest -> x < w).
      { rewrite Forall_forall in Hall. intros w Hw. pose proof (Hall w Hw).
        unfold Rleb in E. destruct (Rle_dec v x); [discriminate|lra]. }
      pose proof (count_le_none x rest (proj2 (Forall_forall _ _) Hn)) as Z0.
      unfold count_le in Z0. rewrite Z0. cbn. rewrite Nat.add_0_r.
      split; [reflexivity|constructor].
Qed.

Section Grid.
Variable sorted : list R.
Hypothesis SS : StronglySorted ASC sorted.
Variables (m step : R) (n : nat).
Hypothesis Hstep : 0 <= step.

Lemma cdf_points_grid k : forall i idx,
  (idx <= length sorted)%nat ->
  Forall (fun v => v <= m + INR i * step) (firstn idx sorted) ->
  Statistics.cdf_points k i m step n (skipn idx sorted) idx
  = map (fun j => {| Statistics.x := m + INR j * step;
                     Statistics.cdf := INR (count_le (m + INR j * step) sorted) / INR n |})
        (seq i k).
Proof.
  induction k as [|k IH]; intros i idx Hidx F; [reflexivity|].
  cbn [Statistics.cdf_points seq map].
  unfold n_of_nat. cbn [n_add n_mul n_div n_of_Z Rnum]. rewrite <- !INR_IZR_INZ.
  set (x := m + INR i * step) in *.
  destruct (cdf_advance_count (skipn idx sorted) idx x (StronglySorted_skipn _ idx SS))
    as [E Fc].
  rewrite E. set (c := count_le x (skipn idx sorted)) in *.
  assert (Hcount : count_le x sorted = (idx + c)%nat).
  { rewrite <- (firstn_skipn idx sorted) at 1. rewrite count_le_app, count_le_all by exact F.
    rewrite length_firstn. unfold c. lia. }
  rewrite skipn_skipn. replace (c + idx)%nat with (idx + c)%nat by lia.
  rewrite <- Hcount. f_equal.
  { rewrite <- INR_IZR_INZ. reflexivity. }
  apply IH.
  - rewrite Hcount. unfold c. pose proof (count_le_le x (skipn idx sorted)).
    rewrite length_skipn in H. lia.
  - assert (Hx : x <= m + INR (S i) * step) by (unfold x; rewrite S_INR; nra).
    rewrite Hcount, <- (firstn_skipn idx sorted) at 1.
    rewrite firstn_app, length_firstn, Nat.min_l by exact Hidx.
    replace (idx + c - idx)%nat with c by lia.
    rewrite firstn_firstn, Nat.min_r by lia.
    apply Forall_app. split.
    + revert F. apply Forall_impl. intros v Hv. lra.
    + revert Fc. apply Forall_impl. intros v Hv. lra.
Qed.
End Grid.

Lemma least_is_first (values : list R) (lo : R) :
  In lo values -> Forall (fun v => lo <= v) values ->
  nth 0 (js_sort Statistics.ascending values) 0 = lo.
Proof.
  intros Hin F. pose proof (sort_ascending values) as SS.
  pose proof (js_sort_perm Statistics.ascending values) as P.
  assert (H1 : In (nth 0 (js_sort Statistics.ascending values) 0) values).
  { apply (Permutation_in _ P), nth_In. rewrite (Permutation_length P).
    destruct values; [contradiction|cbn; lia]. }
  pose proof (sorted_between _ 0 lo SS (Permutation_in _ (Permutation_sym P) Hin)).
  rewrite Forall_forall in F. pose proof (F _ H1). lra.
Qed.

Lemma greatest_is_last (values : list R) (hi : R) :
  In hi values -> Forall (fun v => v <= hi) values ->
  nth (length values - 1) (js_sort Statistics.ascending values) 0 = hi.
Proof.
  intros Hin F. pose proof (sort_ascending values) as SS.
  pose proof (js_sort_perm Statistics.ascending values) as P.
  rewrite <- (Permutation_length P).
  assert (H1 : In (nth (length (js_sort Statistics.ascending values) - 1)
                     (js_sort Statistics.ascending values) 0) values).
  { apply (Permutation_in _ P), nth_In. rewrite (Permutation_length P).
    destruct values; [contradiction|cbn; lia]. }
  pose proof (sorted_between _ 0 hi SS (Permutation_in _ (Permutation_sym P) Hin)).
  rewrite Forall_forall in F. pose proof (F _ H1). lra.
Qed.

Lemma computeCDF_grid (values : list R) (numPoints : Z) (lo hi : R) :
  (2 <= numPoints)%Z ->
  In lo values -> In hi values -> Forall (fun v => lo <= v <= hi) values -> lo <> hi ->
  let step := (hi - lo) / IZR (numPoints - 1) in
  Statistics.computeCDF values (Some numPoints)
  = map (fun j => {| Statistics.x := lo + INR j * step;
                     Statistics.cdf := INR (count_le (lo + INR j * step) values)
                                       / INR (length values) |})
        (seq 0 (Z.to_nat numPoints)).
Proof.
  intros HN Hlo Hhi F Hne step. unfold Statistics.computeCDF.
  destruct (length values =? 0)%nat eqn:E0.
  { apply Nat.eqb_eq, length_zero_iff_nil in E0. subst values. contradiction. }
  cbn [n_sub n_eqb n_zero n_div n_of_Z Rnum].
  rewrite (least_is_first values lo Hlo) by (revert F; apply Forall_impl; intros v; lra).
  rewrite (greatest_is_last values hi Hhi) by (revert F; apply Forall_impl; intros v; lra).
  assert (Hle : lo <= hi).
  { destruct values as [|v vs]; [contradiction|]. inversion F; subst. lra. }
  destruct (Reqb (hi - lo) 0) eqn:Er; [apply Reqb_spec in Er; lra|].
  fold step.
  assert (Hstep : 0 <= step).
  { unfold step. apply Rdiv_nonneg; [lra|]. apply IZR_le. lia. }
  pose proof (sort_ascending values) as SS.
  pose proof (js_sort_perm Statistics.ascending values) as P.
  change (js_sort Statistics.ascending values) with (skipn 0 (js_sort Statistics.ascending values)) at 1.
  rewrite (cdf_points_grid _ SS lo step (length values) Hstep) by (cbn; lia || constructor).
  apply map_ext. intros j. rewrite (count_le_perm _ _ _ P). reflexivity.
Qed.

(** [computeCDF(values, numPoints)] for an array with distinct least and
    greatest values [lo] and [hi] and [numPoints >= 2]: the points are the
    [numPoints] evenly spaced [x = lo + j * (hi - lo) / (numPoints - 1)],
    and each [cdf] is the fraction of the values at most [x], the empirical
    distribution function of the array. *)
Theorem computeCDF_empirical (values : list R) (numPoints : Z) (lo hi : R) :
  (2 <= numPoints)%Z ->
  In lo values -> In hi values -> Forall (fun v => lo <= v <= hi) values -> lo <> hi ->
  let step := (hi - lo) / IZR (numPoints - 1) in
  Statistics.computeCDF values (Some numPoints)
  = map (fun j => {| Statistics.x := lo + INR j * step;
                     Statistics.cdf := INR (count_le (lo + INR j * step) values)
                                       / INR (length values) |})
        (seq 0 (Z.to_nat numPoints)).
Proof.
  intros HN Hlo Hhi F Hne step. exact (computeCDF_grid values numPoints lo hi HN Hlo Hhi F Hne).
Qed.

Lemma sorted_map_seq (f : nat -> R) i k :
  (forall j, f j <= f (S j)) -> Sorted Rle (map f (seq i k)).
Proof.
  intros Hf. revert i; induction k as [|k IH]; intros i; cbn; [constructor|].
  constructor; [apply IH|]. destruct k; cbn; constructor. apply Hf.
Qed.

Lemma last_map_seq {A} (f : nat -> A) k d : last (map f (seq 0 (S k))) d = f k.
Proof. rewrite seq_S, map_app. cbn. apply last_last. Qed.

(** Under the same conditions the [cdf] values of [computeCDF] never
    decrease and lie in [0, 1]; the first point is at the least value and
    the last at the greatest, where [cdf] is 1. *)
Theorem computeCDF_monotone (values : list R) (numPoints : Z) (lo hi : R) :
  (2 <= numPoints)%Z ->
  In lo values -> In hi values -> Forall (fun v => lo <= v <= hi) values -> lo <> hi ->
  let pts := Statistics.computeCDF values (Some numPoints) in
  Sorted Rle (map Statistics.cdf pts) /\
  Forall (fun c => 0 <= c <= 1) (map Statistics.cdf pts) /\
  hd 0 (map Statistics.x pts) = lo /\
  last (map Statistics.x pts) 0 = hi /\
  last (map Statistics.cdf pts) 0 = 1.
Proof.
  intros HN Hlo Hhi F Hne pts. unfold pts.
  rewrite (computeCDF_grid values numPoints lo hi HN Hlo Hhi F Hne).
  set (step := (hi - lo) / IZR (numPoints - 1)).
  assert (Hle : lo <= hi).
  { destruct values as [|v vs]; [contradiction|]. inversion F; subst. lra. }
  assert (HN1 : 0 < IZR (numPoints - 1)) by (apply IZR_lt; lia).
  assert (Hstep : 0 <= step) by (unfold step; apply Rdiv_nonneg; lra).
  assert (Hn : 0 < INR (length values)).
  { apply lt_0_INR. destruct values; [contradiction|cbn; lia]. }
  rewrite !map_map. cbn [Statistics.cdf Statistics.x].
  destruct (Z.to_nat numPoints) as [|k] eqn:EN; [lia|].
  assert (Hk : INR k = IZR (numPoints - 1)).
  { rewrite INR_IZR_INZ. f_equal. lia. }
  split; [|split; [|split; [|split]]].
  - apply sorted_map_seq. intros j. unfold Rdiv.
    apply Rmult_le_compat_r; [left; apply Rinv_0_lt_compat, Hn|].
    apply le_INR, count_le_mono. rewrite S_INR. nra.
  - apply Forall_forall. intros c Hc. apply in_map_iff in Hc as (j & <- & _).
    split; [apply Rdiv_nonneg; [apply pos_INR|lra]|].
    pose proof (le_INR _ _ (count_le_le (lo + INR j * step) values)).
    unfold Rdiv. apply (Rmult_le_reg_r (INR (length values))); [exact Hn|].
    rewrite Rmult_assoc, Rinv_l by lra. lra.
  - cbn. lra.
  - rewrite last_map_seq. rewrite Hk. unfold step. field. lra.
  - rewrite last_map_seq. rewrite Hk.
    replace (lo + IZR (numPoints - 1) * step) with hi by (unfold step; field; lra).
    rewrite count_le_all by (revert F; apply Forall_impl; intros v; lra).
    field. lra.
Qed.
End CDF.

Lemma computeCDF_empirical_witness :
  ((2 <= 3)%Z /\ In 0%R [0; 1]%R /\ In 1%R [0; 1]%R /\
   Forall (fun v => 0 <= v <= 1)%R [0; 1]%R /\ 0%R <> 1%R) /\
  let step := ((1 - 0) / IZR (3 - 1))%R in
  Statistics.computeCDF [0; 1]%R (Some 3%Z)
  = map (fun j => {| Statistics.x := (0 + INR j * step)%R;
                     Statistics.cdf := (INR (count_le (0 + INR j * step) [0; 1]%R)
                                        / INR (length [0; 1]%R))%R |})
        (seq 0 (Z.to_nat 3)).
Proof.
  assert (H1 : (2 <= 3)%Z) by lia.
  assert (H2 : In 0%R [0; 1]%R) by (left; reflexivity).
  assert (H3 : In 1%R [0; 1]%R) by (right; left; reflexivity).
  assert (H4 : Forall (fun v => 0 <= v <= 1)%R [0; 1]%R) by (repeat constructor; lra).
  assert (H5 : 0%R <> 1%R) by lra.
  split; [repeat split; assumption|].
  exact (computeCDF_empirical [0; 1]%R 3 0 1 H1 H2 H3 H4 H5).
Defined.

Lemma computeCDF_monotone_witness :
  ((2 <= 3)%Z /\ In 0%R [0; 1]%R /\ In 1%R [0; 1]%R /\
   Forall (fun v => 0 <= v <= 1)%R [0; 1]%R /\ 0%R <> 1%R) /\
  let pts := Statistics.computeCDF [0; 1]%R (Some 3%Z) in
  Sorted Rle (map Statistics.cdf pts) /\
  Forall (fun c => 0 <= c <= 1)%R (map Statistics.cdf pts) /\
  hd 0%R (map Statistics.x pts) = 0%R /\
  last (map Statistics.x pts) 0%R = 1%R /\
  last (map Statistics.cdf pts) 0%R = 1%R.
Proof.
  assert (H1 : (2 <= 3)%Z) by lia.
  assert (H2 : In 0%R [0; 1]%R) by (left; reflexivity).
  assert (H3 : In 1%R [0; 1]%R) by (right; left; reflexivity).
  assert (H4 : Forall (fun v => 0 <= v <= 1)%R [0; 1]%R) by (repeat constructor; lra).
  assert (H5 : 0%R <> 1%R) by lra.
  split; [repeat split; assumption|].
  exact (computeCDF_monotone [0; 1]%R 3 0 1 H1 H2 H3 H4 H5).
Defined.

(** ** simulator.ts: the progress updates of a run *)

Section Progress.
Context {T : Type} `{JSNum T} `{JSMath T}.
Variable fuel : nat.
Variable parseFloat : string -> T.

(** A run that is not cancelled and returns its results has called
    [onProgress] once for each iteration [i] with [i % 10 === 0] or
    [i === iterations - 1], in order, with status "running" and
    [currentIteration = i + 1], and then once with status "completed" and
    [currentIteration = iterations]. *)
Theorem runSimulation_progress_updates config inputs outs xl (st : St T) res progress st' :
  Simulator.runSimulation fuel parseFloat config inputs outs xl None st
    = Ret (res, progress) st' ->
  progress = map (running_at config)
                 (filter (progress_due config) (seq 0 (Z.to_nat (iterations config))))
             ++ [{| status := Completed; currentIteration := iterations config;
                    totalIterations := iterations config |}].
Proof.
  intros E.
  destruct (run_ret_iterate fuel parseFloat config inputs outs xl None st res progress st' E)
    as (s0 & OV & P & stop & s1 & Ei & _ & EP).
  rewrite EP, (iterate_progress fuel parseFloat _ _ _ _ _ _ _ _ _ _ _ _ _ _ _ Ei).
  reflexivity.
Qed.

End Progress.

Lemma runSimulation_progress_updates_witness :
  exists res progress st',
    Simulator.runSimulation 100 (fun _ => 0%R) (ex_config 25) [ex_input] [ex_output]
      ex_excel None ex_state = Ret (res, progress) st' /\
    progress = map (running_at (ex_config 25))
                   (filter (progress_due (ex_config 25))
                      (seq 0 (Z.to_nat (iterations (ex_config 25)))))
               ++ [{| status := Completed; currentIteration := iterations (ex_config 25);
                      totalIterations := iterations (ex_config 25) |}].
Proof.
  destruct (ex_run_returns 25 None) as (res & progress & st' & E).
  exists res, progress, st'. split; [exact E|].
  exact (runSimulation_progress_updates 100 (fun _ => 0%R) (ex_config 25) [ex_input]
           [ex_output] ex_excel ex_state res progress st' E).
Defined.
